(** * chatrank: log-based chat ranking (bot/plugins/chatrank.py)

    A shallow embedding of the ranking plugin: the three line patterns and
    the backtracking matcher that runs them, the per-file counter with its
    memo table, the aggregation over the log directory, tie-aware ranking,
    the daily series and the closed-form linear fit.

    Conventions.
    - A Python [str] is a list of Unicode code points ([list N]).
    - A Python [int] is a [Z]; the quotient of a true division is an exact
      rational ([Q]), the idealisation of the float the interpreter rounds to.
    - A [collections.Counter] is an association list in insertion order
      with distinct keys (dict order is what [most_common] ties fall back on).
    - Exceptions are values of [exn]; a computation that touches the memo
      table or the file system runs in the monad [M]. *)

From Stdlib Require Import ZArith QArith Qfield Lia Lqa String Ascii DecimalString.
From stdpp Require Import gmap list sorting.

Set Default Proof Using "Type".
Local Open Scope Z_scope.

(** ** Text *)

Abbreviation str := (list N).

Definition cp (c : ascii) : N := N_of_ascii c.

(** A string literal of the source, as code points. *)
Definition lit (s : string) : str := map cp (list_ascii_of_string s).

(** The tables of the Unicode database that [str.lower] and the pattern
    class [\w] consult for code points outside ASCII.  The source does not
    contain them, so they are taken as parameters. *)
Class Unicode := {
  uni_isalnum : N → bool;
  uni_lower : str → str
}.

Definition is_ascii (c : N) : bool := (c <? 128)%N.

Definition in_range (lo hi : ascii) (c : N) : bool :=
  (cp lo <=? c)%N && (c <=? cp hi)%N.

Definition ascii_lower (c : N) : N :=
  if in_range "A" "Z" c then (c + 32)%N else c.

Section Text.
Context `{Unicode}.

(** [\w] of a [str] pattern: alphanumeric or underscore. *)
Definition is_word (c : N) : bool :=
  if is_ascii c
  then in_range "a" "z" c || in_range "A" "Z" c || in_range "0" "9" c
       || (c =? cp "_")%N
  else uni_isalnum c.

(** [str.lower]. *)
Definition lower (s : str) : str :=
  if forallb is_ascii s then map ascii_lower s else uni_lower s.
End Text.

(** ** Patterns

    The fragment of [re] syntax the three patterns are written in.  The
    repetitions of the source all range over a single character class. *)

Inductive cls :=
| Except (cs : str)      (* [^...] *)
| WordCls.               (* \w *)

Inductive group_name := chat_user | action_user.

#[global] Instance group_name_eq_dec : EqDecision group_name.
Proof. solve_decision. Defined.

Inductive regex :=
| Bol                                  (* ^ *)
| Chr (c : N)                          (* a literal character *)
| Plus (a : cls)                       (* a+ , greedy *)
| Star (a : cls)                       (* a* , greedy *)
| OptChr (c : N)                       (* c? , greedy *)
| WordB                                (* \b *)
| Grp (g : group_name) (r : regex)     (* (?P<g>r) *)
| Cat (r1 r2 : regex)
| Alt (r1 r2 : regex).                 (* r1|r2 , left first *)

Declare Scope regex_scope.
Delimit Scope regex_scope with re.
Bind Scope regex_scope with regex.
Infix "·" := Cat (at level 60, right associativity) : regex_scope.

(** A run of literal characters. *)
Fixpoint chars (s : str) (r : regex) : regex :=
  match s with
  | [] => r
  | c :: s' => Cat (Chr c) (chars s' r)
  end.

(** The groups a pattern defines ([match[g]] raises [IndexError] for any
    other name). *)
Fixpoint groups_of (r : regex) : list group_name :=
  match r with
  | Grp g r' => g :: groups_of r'
  | Cat r1 r2 | Alt r1 r2 => groups_of r1 ++ groups_of r2
  | _ => []
  end.

(** A position in the subject: the text already consumed, last character
    first, and the text still ahead. *)
Record pos := Pos { before : str; ahead : str }.

(** The text of the named groups; [None] for a group that took no part. *)
Record caps := Caps { g_chat : option str; g_action : option str }.

Definition no_caps : caps := Caps None None.

Definition get_group (g : group_name) (m : caps) : option str :=
  match g with chat_user => g_chat m | action_user => g_action m end.

Definition set_group (g : group_name) (t : str) (m : caps) : caps :=
  match g with
  | chat_user => Caps (Some t) (g_action m)
  | action_user => Caps (g_chat m) (Some t)
  end.

(** The text between two positions of one subject. *)
Definition text_between (p p' : pos) : str :=
  take (length (ahead p) - length (ahead p'))%nat (ahead p).

Section Matcher.
Context `{Unicode}.

Definition cls_ok (a : cls) (c : N) : bool :=
  match a with
  | Except cs => negb (existsb (N.eqb c) cs)
  | WordCls => is_word c
  end.

Definition word_at (o : option N) : bool :=
  match o with Some c => is_word c | None => false end.

(** Greedy repetition of a class: take as many characters as the class
    allows, then give them back one at a time while the rest of the
    pattern [k] fails. *)
Fixpoint star_k {R} (a : cls) (bef ahd : str) (k : pos → option R)
  : option R :=
  match ahd with
  | c :: ahd' =>
      if cls_ok a c then
        match star_k a (c :: bef) ahd' k with
        | Some r => Some r
        | None => k (Pos bef ahd)
        end
      else k (Pos bef ahd)
  | [] => k (Pos bef ahd)
  end.

(** The backtracking matcher, in continuation-passing style: [k] is the
    rest of the pattern. *)
Fixpoint exec (r : regex) (p : pos) (m : caps)
    (k : pos → caps → option caps) : option caps :=
  match r with
  | Bol => match before p with [] => k p m | _ => None end
  | Chr c =>
      match ahead p with
      | c' :: rest => if (c =? c')%N then k (Pos (c' :: before p) rest) m
                      else None
      | [] => None
      end
  | Plus a =>
      match ahead p with
      | c :: rest => if cls_ok a c
                     then star_k a (c :: before p) rest (λ p', k p' m)
                     else None
      | [] => None
      end
  | Star a => star_k a (before p) (ahead p) (λ p', k p' m)
  | OptChr c =>
      match ahead p with
      | c' :: rest =>
          if (c =? c')%N then
            match k (Pos (c' :: before p) rest) m with
            | Some r => Some r
            | None => k p m
            end
          else k p m
      | [] => k p m
      end
  | WordB =>
      if xorb (word_at (head (before p))) (word_at (head (ahead p)))
      then k p m else None
  | Grp g r' => exec r' p m (λ p' m', k p' (set_group g (text_between p p') m'))
  | Cat r1 r2 => exec r1 p m (λ p' m', exec r2 p' m' k)
  | Alt r1 r2 =>
      match exec r1 p m k with
      | Some x => Some x
      | None => exec r2 p m k
      end
  end.

(** [pattern.match(line)]: a match anchored at the start of [line]. *)
Definition re_match (r : regex) (line : str) : option caps :=
  exec r (Pos [] line) no_caps (λ _ m, Some m).
End Matcher.

(** The common head of the three patterns: [^\[[^]]+\][^<*]*]. *)
Definition stamp (r : regex) : regex :=
  (Bol · Chr (cp "[") · Plus (Except (lit "]")) · Chr (cp "]")
       · Star (Except (lit "<*")) · r)%re.

(** [^\[[^]]+\][^<*]*(<(?P<chat_user>[^>]+)>|\* (?P<action_user>[^ ]+))] *)
Definition CHAT_LOG_RE_pat : regex :=
  stamp (Alt (Chr (cp "<") · Grp chat_user (Plus (Except (lit ">")))
                           · Chr (cp ">"))
             (Chr (cp "*") · Chr (cp " ")
                           · Grp action_user (Plus (Except (lit " "))))).

(** [^\[[^]]+\][^<*]*<(?P<chat_user>[^>]+)> !bonk\b] *)
Definition BONKER_RE_pat : regex :=
  stamp (Chr (cp "<") · Grp chat_user (Plus (Except (lit ">")))
                      · chars (lit "> !bonk") WordB).

(** [^\[[^]]+\][^<*]*<[^>]+> !bonk @?(?P<chat_user>\w+)] *)
Definition BONKED_RE_pat : regex :=
  stamp (Chr (cp "<") · Plus (Except (lit ">"))
                      · chars (lit "> !bonk ")
                          (OptChr (cp "@") · Grp chat_user (Plus WordCls))).

(** The compiled pattern objects of the module; [reg is CHAT_LOG_RE] is
    equality of these tags. *)
Inductive pattern := CHAT_LOG_RE | BONKER_RE | BONKED_RE.

Definition pattern_of (reg : pattern) : regex :=
  match reg with
  | CHAT_LOG_RE => CHAT_LOG_RE_pat
  | BONKER_RE => BONKER_RE_pat
  | BONKED_RE => BONKED_RE_pat
  end.

#[global] Instance pattern_eq_dec : EqDecision pattern.
Proof. solve_decision. Defined.

#[global] Instance pattern_countable : Countable pattern.
Proof.
  refine (inj_countable'
            (λ r, match r with CHAT_LOG_RE => 0%nat | BONKER_RE => 1%nat
                          | BONKED_RE => 2%nat end)
            (λ n, match n with 0%nat => CHAT_LOG_RE | 1%nat => BONKER_RE
                          | _ => BONKED_RE end) _).
  intros []; reflexivity.
Defined.

(** ** Exceptions and results *)

Inductive exn :=
| AssertionError | IndexError | OSError | ValueError | ZeroDivisionError.

Inductive result (A : Type) :=
| Ok (a : A)
| Raise (e : exn).
Arguments Ok {A} a.
Arguments Raise {A} e.

#[global] Instance result_ret : MRet result := λ A a, Ok a.
#[global] Instance result_bind : MBind result := λ A B f r,
  match r with Ok a => f a | Raise e => Raise e end.

(** ** Counters *)

Abbreviation Counter := (list (str * Z)).

(** [c[k]]: the count of a missing key is 0, and reading it adds no key. *)
Fixpoint counter_get (c : Counter) (k : str) : Z :=
  match c with
  | [] => 0
  | (k', v) :: c' => if decide (k' = k) then v else counter_get c' k
  end.

(** [c[k] += n]: a present key keeps its place, a new key goes last. *)
Fixpoint counter_add (c : Counter) (k : str) (n : Z) : Counter :=
  match c with
  | [] => [(k, n)]
  | (k', v) :: c' =>
      if decide (k' = k) then (k', v + n) :: c'
      else (k', v) :: counter_add c' k n
  end.

(** [total.update(c)]: every entry of [c], in order, is added to [total]. *)
Definition counter_update (total c : Counter) : Counter :=
  foldl (λ t kv, counter_add t kv.1 kv.2) total c.

(** [sorted(items, key=itemgetter(1), reverse=True)]: a stable sort by
    descending count, written as the insertion sort it equals. *)
Fixpoint insert_desc (p : str * Z) (l : list (str * Z)) : list (str * Z) :=
  match l with
  | [] => [p]
  | q :: l' => if p.2 <? q.2 then q :: insert_desc p l' else p :: q :: l'
  end.

Definition sorted_desc (l : list (str * Z)) : list (str * Z) :=
  foldr insert_desc [] l.

(** [Counter.most_common(n)]: all entries by descending count when [n] is
    [None], else [heapq.nlargest(n, ...)], which is the first [n] of the
    same order and is empty for [n <= 0]. *)
Definition most_common (c : Counter) (n : option Z) : list (str * Z) :=
  match n with
  | None => sorted_desc c
  | Some n => take (Z.to_nat n) (sorted_desc c)
  end.

(** ** Ranking *)

(** [itertools.groupby(counts, key=lambda pair: pair[1])]: maximal runs of
    consecutive entries with equal count, each under its count. *)
Fixpoint groupby (l : list (str * Z)) : list (Z * list (str * Z)) :=
  match l with
  | [] => []
  | p :: l' =>
      match groupby l' with
      | (k, g) :: gs =>
          if p.2 =? k then (k, p :: g) :: gs else (p.2, [p]) :: (k, g) :: gs
      | [] => [(p.2, [p])]
      end
  end.

(** [enumerate(l, start)]. *)
Fixpoint enumerate {A} (start : Z) (l : list A) : list (Z * A) :=
  match l with
  | [] => []
  | a :: l' => (start, a) :: enumerate (start + 1) l'
  end.

Definition _tied_rank (counts : list (str * Z))
  : list (Z * (Z * list (str * Z))) :=
  enumerate 1 (groupby counts).

(** The two nested loops of [_user_rank_by_line_type]: the first group, in
    rank order, that lists [target]. *)
Fixpoint find_rank (target : str) (ranked : list (Z * (Z * list (str * Z))))
  : option (Z * Z) :=
  match ranked with
  | [] => None
  | (rank, (count, users)) :: rest =>
      if existsb (λ u, bool_decide (target = u.1)) users
      then Some (rank, count)
      else find_rank target rest
  end.

(** [str(n)] for an integer. *)
Definition str_of_Z (n : Z) : str := lit (NilZero.string_of_int (Z.to_int n)).

(** [sep.join(l)]. *)
Fixpoint join (sep : str) (l : list str) : str :=
  match l with
  | [] => []
  | [s] => s
  | s :: l' => s ++ sep ++ join sep l'
  end.

(** One entry of the top-N listing: ['{rank}. {usernames} ({count})']. *)
Definition format_group (g : Z * (Z * list (str * Z))) : str :=
  let '(rank, (count, users)) := g in
  str_of_Z rank ++ lit ". " ++ join (lit ", ") (map fst users)
    ++ lit " (" ++ str_of_Z count ++ lit ")".

(** ** The log directory and the process state *)

(** What the file system and the clock answer during one command:
    [os.listdir('logs')] ([None] when it raises), the lines of a file by
    path, each with its line end ([None] when [open] raises), and
    [str(datetime.date.today())].  Neither is taken to change while one
    command runs; from one command to the next both may. *)
Record world := World {
  os_listdir : option (list str);
  os_open : str → option (list str);
  today : str
}.

Abbreviation key := (str * pattern)%type.

(** What a command does to the memo table of [_counts_per_file] and to
    the files: the table is consulted, the table is written, the body of
    the function reads a file. *)
Inductive event :=
| Lookup (k : key)
| Store (k : key)
| Scan (k : key).

(** The process-wide state: the table of [functools.lru_cache] around
    [_counts_per_file], the one slot of the cache around [_log_start_date],
    and the events so far, latest first. *)
Record state := State {
  memo : gmap key Counter;
  start_memo : option str;
  events : list event
}.

Definition init : state := State ∅ None [].

#[global] Instance event_eq_dec : EqDecision event.
Proof. solve_decision. Defined.

Definition M (A : Type) : Type := state → result A * state.

#[global] Instance M_ret : MRet M := λ A a st, (Ok a, st).
#[global] Instance M_bind : MBind M := λ A B f m st,
  match m st with
  | (Ok a, st') => f a st'
  | (Raise e, st') => (Raise e, st')
  end.

Definition lift {A} (r : result A) : M A := λ st, (r, st).

Definition emit (e : event) : M () := λ st,
  (Ok (), State (memo st) (start_memo st) (e :: events st)).

Definition memo_get (k : key) : M (option Counter) := λ st,
  (Ok (memo st !! k), st).

Definition memo_put (k : key) (c : Counter) : M () := λ st,
  (Ok (), State (<[k := c]> (memo st)) (start_memo st) (events st)).

Definition of_option {A} (e : exn) (o : option A) : result A :=
  match o with Some a => Ok a | None => Raise e end.

(** [os.path.join('logs', filename)]. *)
Definition logs_path (filename : str) : str := lit "logs/" ++ filename.

(** [f'{datetime.date.today()}.log']. *)
Definition today_log (w : world) : str := today w ++ lit ".log".

Section Counting.
Context `{Unicode}.

(** [match[g]]. *)
Definition match_group (reg : pattern) (m : caps) (g : group_name)
  : result (option str) :=
  if bool_decide (g ∈ groups_of (pattern_of reg))
  then Ok (get_group g m) else Raise IndexError.

(** Truth value of an optional string: [None] and [''] are false. *)
Definition truthy (o : option str) : bool :=
  match o with Some (_ :: _) => true | _ => false end.

(** The body of the loop over the lines of a file (assertions are
    executed, as they are unless the interpreter runs with [-O]). *)
Definition scan_line (reg : pattern) (counts : Counter) (line : str)
  : result Counter :=
  match re_match (pattern_of reg) line with
  | None =>
      if decide (reg = CHAT_LOG_RE) then Raise AssertionError
      else Ok counts
  | Some m =>
      u ← match_group reg m chat_user;
      user ← (if truthy u then Ok u else match_group reg m action_user);
      match user with
      | Some (c :: t) => Ok (counter_add counts (lower (c :: t)) 1)
      | _ => Raise AssertionError
      end
  end.

Fixpoint scan_lines (reg : pattern) (counts : Counter) (lines : list str)
  : result Counter :=
  match lines with
  | [] => Ok counts
  | line :: rest =>
      counts' ← scan_line reg counts line;
      scan_lines reg counts' rest
  end.

(** The body of [_counts_per_file]: open the file, count line by line. *)
Definition scan_file (w : world) (filename : str) (reg : pattern)
  : result Counter :=
  lines ← of_option OSError (os_open w filename);
  scan_lines reg [] lines.

(** [_counts_per_file.__wrapped__]: the function under the cache. *)
Definition _counts_per_file__wrapped__ (w : world) (filename : str)
    (reg : pattern) : M Counter :=
  emit (Scan (filename, reg));;
  lift (scan_file w filename reg).

(** [_counts_per_file] as decorated: [lru_cache(maxsize=None)] returns the
    stored result for a key it has, else calls the function and stores
    what it returns (an exception stores nothing). *)
Definition _counts_per_file (w : world) (filename : str) (reg : pattern)
  : M Counter :=
  emit (Lookup (filename, reg));;
  hit ← memo_get (filename, reg);
  match hit with
  | Some c => mret c
  | None =>
      c ← _counts_per_file__wrapped__ w filename reg;
      memo_put (filename, reg) c;;
      emit (Store (filename, reg));;
      mret c
  end.

(** The loop of [_chat_rank_counts] over the directory listing. *)
Fixpoint chat_rank_loop (w : world) (reg : pattern) (files : list str)
    (total : Counter) : M Counter :=
  match files with
  | [] => mret total
  | filename :: rest =>
      let full_filename := logs_path filename in
      c ← (if decide (filename ≠ today_log w)
           then _counts_per_file w full_filename reg
           else _counts_per_file__wrapped__ w full_filename reg);
      chat_rank_loop w reg rest (counter_update total c)
  end.

Definition _chat_rank_counts (w : world) (reg : pattern) : M Counter :=
  files ← lift (of_option OSError (os_listdir w));
  chat_rank_loop w reg files [].

Definition _user_rank_by_line_type (w : world) (username : str)
    (reg : pattern) : M (option (Z * Z)) :=
  total ← _chat_rank_counts w reg;
  let target_username := lower username in
  mret (find_rank target_username (_tied_rank (most_common total None))).

Definition _top_n_rank_by_line_type (w : world) (reg : pattern) (n : Z)
  : M (list str) :=
  total ← _chat_rank_counts w reg;
  mret (map format_group (_tied_rank (most_common total (Some n)))).
End Counting.

(** ** Dates and file names *)

(** Order of [str] values: lexicographic by code point. *)
Fixpoint str_ltb (a b : str) : bool :=
  match a, b with
  | _, [] => false
  | [], _ :: _ => true
  | x :: a', y :: b' => (x <? y)%N || ((x =? y)%N && str_ltb a' b')
  end.

(** [min(l)], [None] for the [ValueError] of an empty list. *)
Definition str_min (l : list str) : option str :=
  match l with
  | [] => None
  | s :: l' => Some (foldl (λ m t, if str_ltb t m then t else m) s l')
  end.

(** [sorted(l)]: stable and ascending. *)
Fixpoint insert_asc (s : str) (l : list str) : list str :=
  match l with
  | [] => [s]
  | t :: l' => if str_ltb t s then t :: insert_asc s l' else s :: t :: l'
  end.

Definition sorted (l : list str) : list str := foldr insert_asc [] l.

(** [s.partition('.')[0]], which is also [s.split('.')[0]]. *)
Fixpoint before_dot (s : str) : str :=
  match s with
  | [] => []
  | c :: s' => if (c =? cp ".")%N then [] else c :: before_dot s'
  end.

Record date := Date { year : Z; month : Z; day : Z }.

Definition is_leap (y : Z) : bool :=
  (y mod 4 =? 0) && (negb (y mod 100 =? 0) || (y mod 400 =? 0)).

Definition days_in_month (y m : Z) : Z :=
  if m =? 2 then (if is_leap y then 29 else 28)
  else if (m =? 4) || (m =? 6) || (m =? 9) || (m =? 11) then 30 else 31.

Definition days_before_year (y : Z) : Z :=
  let y := y - 1 in y * 365 + y / 4 - y / 100 + y / 400.

Definition days_before_month (y m : Z) : Z :=
  foldr Z.add 0 (map (λ i, days_in_month y (Z.of_nat i))
                     (seq 1 (Z.to_nat m - 1))).

(** [d.toordinal()]: day 1 is 0001-01-01. *)
Definition toordinal (d : date) : Z :=
  days_before_year (year d) + days_before_month (year d) (month d) + day d.

Definition digit (c : N) : option Z :=
  if in_range "0" "9" c then Some (Z.of_N c - 48) else None.

(** [datetime.date.fromisoformat(s)] for the format YYYY-MM-DD, the one
    format every interpreter version reads; anything else is taken to
    raise [ValueError]. *)
Definition fromisoformat (s : str) : result date :=
  match s with
  | [y1; y2; y3; y4; s1; m1; m2; s2; d1; d2] =>
      of_option ValueError
        (y1 ← digit y1; y2 ← digit y2; y3 ← digit y3; y4 ← digit y4;
         m1 ← digit m1; m2 ← digit m2; d1 ← digit d1; d2 ← digit d2;
         let y := 1000 * y1 + 100 * y2 + 10 * y3 + y4 in
         let m := 10 * m1 + m2 in
         let d := 10 * d1 + d2 in
         if bool_decide (s1 = cp "-" ∧ s2 = cp "-" ∧ 1 ≤ y ∧ 1 ≤ m ≤ 12
                         ∧ 1 ≤ d ≤ days_in_month y m)
         then Some (Date y m d) else None)
  | _ => Raise ValueError
  end.

(** [_log_start_date], under [lru_cache(maxsize=1)]: it takes no argument,
    so its first result is returned ever after. *)
Definition _log_start_date (w : world) : M str := λ st,
  match start_memo st with
  | Some s => (Ok s, st)
  | None =>
      match (files ← of_option OSError (os_listdir w);
             logs_start ← of_option ValueError (str_min files);
             Ok (before_dot logs_start)) with
      | Ok s => (Ok s, State (memo st) (Some s) (events st))
      | Raise e => (Raise e, st)
      end
  end.

(** ** The trend *)

(** [sum(l)]. *)
Definition Qsum (l : list Q) : Q := foldl Qplus 0%Q l.

(** [a / b] on numbers. *)
Definition truediv (a b : Q) : result Q :=
  if Qeq_bool b 0 then Raise ZeroDivisionError else Ok (Qred (a / b)).

Definition lin_regr (x y : list Q) : result (Q * Q) :=
  let sum_x := Qsum x in
  let sum_xx := Qsum (map (λ xi, xi * xi)%Q x) in
  let sum_y := Qsum y in
  let sum_xy := Qsum (zip_with Qmult x y) in
  b ← truediv (sum_y * sum_xx - sum_x * sum_xy)%Q
              (inject_Z (Z.of_nat (length x)) * sum_xx - sum_x * sum_x)%Q;
  a ← truediv (sum_xy - b * sum_x)%Q sum_xx;
  Ok (a, b).

(** What [cmd_chatplot] answers: the text
    ['sorry {esc(user)}, need at least 2 days of data'], or the chart it
    asks the rendering service for, given by the two series and the line
    [m * x + c]. *)
Inductive reply :=
| NeedTwoDays (user : str)
| Plot (x y : list Z) (m c : Q).

(** The part of [cmd_chatplot] after its loop: the test for too short a
    series, then the fit. *)
Definition chatplot_fit (user : str) (x y : list Z) : result reply :=
  if (length x <? 2)%nat then Ok (NeedTwoDays user)
  else
    mc ← lin_regr (map inject_Z x) (map inject_Z y);
    Ok (Plot x y mc.1 mc.2).

Section Trend.
Context `{Unicode}.

(** The loop of [cmd_chatplot] over the sorted directory listing. *)
Fixpoint chatplot_loop (w : world) (user : str) (min_date : date)
    (files : list str) (x y : list Z) : M (list Z * list Z) :=
  match files with
  | [] => mret (x, y)
  | filename :: rest =>
      if decide (filename = today_log w)
      then chatplot_loop w user min_date rest x y
      else
        filename_date ← lift (fromisoformat (before_dot filename));
        let full_filename := logs_path filename in
        counts ← _counts_per_file w full_filename CHAT_LOG_RE;
        if negb (bool_decide (x = [])) || negb (counter_get counts user =? 0)
        then chatplot_loop w user min_date rest
               (x ++ [toordinal filename_date - toordinal min_date])
               (y ++ [counter_get counts user])
        else chatplot_loop w user min_date rest x y
  end.

(** [cmd_chatplot] up to the request to the rendering service;
    [user_arg] is what [optional_user_arg(match)] returns. *)
Definition cmd_chatplot (w : world) (user_arg : str) : M reply :=
  let user := lower user_arg in
  start ← _log_start_date w;
  min_date ← lift (fromisoformat start);
  files ← lift (of_option OSError (os_listdir w));
  xy ← chatplot_loop w user min_date (sorted files) [] [];
  lift (chatplot_fit user xy.1 xy.2).
End Trend.

(** ** What a match is

    The declarative reading of a pattern, against which the matcher is
    checked: [Matches r p m p' m'] when [r] can take the subject from
    position [p] to [p'], turning the groups [m] into [m']. *)

Section Reading.
Context `{Unicode}.

Inductive Matches : regex → pos → caps → pos → caps → Prop :=
| M_Bol ahd m :
    Matches Bol (Pos [] ahd) m (Pos [] ahd) m
| M_Chr c bef rest m :
    Matches (Chr c) (Pos bef (c :: rest)) m (Pos (c :: bef) rest) m
| M_Plus a bef t rest m :
    t ≠ [] → forallb (cls_ok a) t = true →
    Matches (Plus a) (Pos bef (t ++ rest)) m (Pos (reverse t ++ bef) rest) m
| M_Star a bef t rest m :
    forallb (cls_ok a) t = true →
    Matches (Star a) (Pos bef (t ++ rest)) m (Pos (reverse t ++ bef) rest) m
| M_OptNo c p m :
    Matches (OptChr c) p m p m
| M_OptYes c bef rest m :
    Matches (OptChr c) (Pos bef (c :: rest)) m (Pos (c :: bef) rest) m
| M_WordB p m :
    xorb (word_at (head (before p))) (word_at (head (ahead p))) = true →
    Matches WordB p m p m
| M_Grp g r p m p' m' :
    Matches r p m p' m' →
    Matches (Grp g r) p m p' (set_group g (text_between p p') m')
| M_Cat r1 r2 p m p1 m1 p2 m2 :
    Matches r1 p m p1 m1 → Matches r2 p1 m1 p2 m2 →
    Matches (Cat r1 r2) p m p2 m2
| M_AltL r1 r2 p m p' m' :
    Matches r1 p m p' m' → Matches (Alt r1 r2) p m p' m'
| M_AltR r1 r2 p m p' m' :
    Matches r2 p m p' m' → Matches (Alt r1 r2) p m p' m'.
End Reading.

(** ** Measures used by the statements *)

(** The number of events a counter holds: the sum of its counts. *)
Definition counter_total (c : Counter) : Z := foldr (λ kv s, kv.2 + s) 0 c.

Section Hits.
Context `{Unicode}.

(** The number of lines a pattern matches. *)
Fixpoint hits (r : regex) (lines : list str) : Z :=
  match lines with
  | [] => 0
  | line :: rest =>
      match re_match r line with
      | Some _ => 1 + hits r rest
      | None => hits r rest
      end
  end.
End Hits.

(** Descending by count, the order [most_common] leaves its entries in. *)
Definition desc (p q : str * Z) : Prop := q.2 ≤ p.2.

(** The entries a ranked listing holds, group after group. *)
Definition members (r : list (Z * (Z * list (str * Z)))) : list (str * Z) :=
  concat (map (λ g, g.2.2) r).

(** The state after further events, latest first. *)
Definition log (new : list event) (st : state) : state :=
  State (memo st) (start_memo st) (new ++ events st).

(** The path of today's log. *)
Definition today_path (w : world) : str := logs_path (today_log w).

(** How often the memo table was written under a key. *)
Definition stores (k : key) (evs : list event) : nat :=
  length (filter (λ e, e = Store k) evs).

(** The memo table holds an entry exactly under the keys written once,
    and no key was written twice. *)
Definition memo_inv (st : state) : Prop :=
  ∀ k, stores k (events st) = match memo st !! k with
                              | Some _ => 1%nat
                              | None => 0%nat
                              end.

(** What a command run in the world [w] may do to the process state:
    entries of the memo table stay as they are, the invariant of the table
    is kept, and the events it adds never consult or write the table
    under today's path, write only under a key that had no entry, and read
    a file only if it is today's or its key had no entry. *)
Definition effect (w : world) (st st' : state) : Prop :=
  memo st ⊆ memo st'
  ∧ (memo_inv st → memo_inv st')
  ∧ (∀ k, k.1 = today_path w → memo st' !! k = memo st !! k)
  ∧ ∃ new, events st' = new ++ events st
      ∧ (∀ k, Lookup k ∈ new ∨ Store k ∈ new → k.1 ≠ today_path w)
      ∧ (∀ k, Store k ∈ new → memo st !! k = None ∧ is_Some (memo st' !! k))
      ∧ (∀ k, Scan k ∈ new → k.1 = today_path w ∨ memo st !! k = None).

(** The commands that use the memo table, and a process as the commands
    it has run so far, each in the world of its moment. *)
Inductive command :=
| Aggregate (reg : pattern)       (* a pass of [_chat_rank_counts] *)
| ChatPlot (user_arg : str).      (* [cmd_chatplot] *)

Section Process.
Context `{Unicode}.

Definition step (st : state) (c : world * command) : state :=
  match c.2 with
  | Aggregate reg => (_chat_rank_counts c.1 reg st).2
  | ChatPlot user_arg => (cmd_chatplot c.1 user_arg st).2
  end.

End Process.

(** [len(l)] as a number. *)
Definition Qlen {A} (l : list A) : Q := inject_Z (Z.of_nat (length l)).

(** The day offset the plot gives a file: the days from the start date to
    the date in the file name. *)
Definition day_offset (min_date : date) (filename : str) : Z :=
  match fromisoformat (before_dot filename) with
  | Ok d => toordinal d - toordinal min_date
  | Raise _ => 0
  end.

(** The count the memo table holds for a user in the chat lines of a
    file. *)
Definition count_in (st : state) (user filename : str) : Z :=
  counter_get (default [] (memo st !! (logs_path filename, CHAT_LOG_RE))) user.

(** The series as the specification words it: the days in order, without
    the zero days in front of the first day that counts. *)
Fixpoint skip_leading_zeros (days : list (Z * Z)) : list (Z * Z) :=
  match days with
  | [] => []
  | (x, y) :: rest =>
      if y =? 0 then skip_leading_zeros rest else (x, y) :: rest
  end.

(** The part of the days the loop keeps, by whether the series has
    started. *)
Definition series_from (started : bool) (days : list (Z * Z)) : list (Z * Z) :=
  if started then days else skip_leading_zeros days.

Section Fresh.
Context `{Unicode}.

(** The memo table agrees with the files of [w]: what it holds under a
    key is what a scan of the file would return now. *)
Definition memo_fresh (w : world) (st : state) : Prop :=
  ∀ f reg c, memo st !! (f, reg) = Some c → scan_file w f reg = Ok c.

(** The totals of a pattern over the listed files, scanned one by one. *)
Fixpoint totals_of (w : world) (reg : pattern) (files : list str)
    (total : Counter) : result Counter :=
  match files with
  | [] => Ok total
  | f :: rest =>
      c ← scan_file w (logs_path f) reg;
      totals_of w reg rest (counter_update total c)
  end.
End Fresh.

(** ** Sample data *)

(** The line end every line of a file carries. *)
Definition nl : str := [10%N].

(** The counts [{a: 5, b: 5, c: 3}]. *)
Definition abc_counts : Counter :=
  [(lit "a", 5); (lit "b", 5); (lit "c", 3)].

(** A log directory given by its files, in listing order, each with its
    lines. *)
Fixpoint file_lines (files : list (str * list str)) (path : str)
  : option (list str) :=
  match files with
  | [] => None
  | (name, lines) :: rest =>
      if decide (logs_path name = path) then Some lines
      else file_lines rest path
  end.

Definition dir_world (files : list (str * list str)) (today : str) : world :=
  World (Some files.*1) (file_lines files) today.

(** One finished log in which a, b and c each chat five times, d three
    times. *)
Definition ties_world : world :=
  dir_world
    [(lit "2021-03-01.log",
      replicate 5 (lit "[12:00] <a> hi" ++ nl)
      ++ replicate 5 (lit "[12:01] <b> hi" ++ nl)
      ++ replicate 5 (lit "[12:02] <c> hi" ++ nl)
      ++ replicate 3 (lit "[12:03] <d> hi" ++ nl))]
    (lit "2021-03-02").

(** A finished log with a line of the server between two chat lines. *)
Definition notice_world : world :=
  dir_world
    [(lit "2021-03-01.log",
      [lit "[12:00] <foo> hi" ++ nl;
       lit "[12:01] -!- bar has joined" ++ nl;
       lit "[12:02] <foo> !bonk @bar" ++ nl])]
    (lit "2021-03-02").

(** Four finished days and today: foo is silent on the first day, chats
    on the second, is silent on the third and chats again on the fourth. *)
Definition plot_world : world :=
  dir_world
    [(lit "2021-03-03.log", [lit "[12:00] <bar> hi" ++ nl]);
     (lit "2021-03-01.log", [lit "[12:00] <bar> hi" ++ nl]);
     (lit "2021-03-05.log", [lit "[12:00] <Foo> hi" ++ nl]);
     (lit "2021-03-02.log",
      [lit "[12:00] <Foo> hi" ++ nl; lit "[12:01] * foo waves" ++ nl]);
     (lit "2021-03-04.log",
      [lit "[12:00] <foo> hi" ++ nl; lit "[12:01] <bar> hi" ++ nl;
       lit "[12:02] <foo> !bonk bar" ++ nl])]
    (lit "2021-03-05").

(** Two files of one and the same day in the directory. *)
Definition same_day_world : world :=
  dir_world
    [(lit "2021-03-01.log", [lit "[12:00] <foo> hi" ++ nl]);
     (lit "2021-03-01.log.bak", [lit "[12:00] <foo> hi" ++ nl])]
    (lit "2021-03-02").

Definition ascii_text : Unicode :=
  {| uni_isalnum := λ _, false; uni_lower := λ s, s |}.

(** ** Further code: the chart data and the other commands *)

(** The scatter data of the chart:
    [{'x': x_i, 'y': y_i} for x_i, y_i in zip(x, y) if y_i]. *)
Definition chart_points (x y : list Z) : list (Z * Z) :=
  filter (λ p, p.2 ≠ 0) (zip x y).

(** The two ends of the trend line, at [x[0]] and [x[-1]]; either index
    raises [IndexError] on an empty series. *)
Definition trend_line (x : list Z) (m c : Q) : result ((Z * Q) * (Z * Q)) :=
  x0 ← of_option IndexError (head x);
  xn ← of_option IndexError (last x);
  Ok ((x0, m * inject_Z x0 + c)%Q, (xn, m * inject_Z xn + c)%Q).

Section Commands.
Context `{Unicode}.
(** [bot.data.esc], which the source imports. *)
Variable esc : str → str.

(** The commands below return the text they hand to [format_msg]. *)

Definition cmd_chatrank (w : world) (user : str) : M str :=
  ret ← _user_rank_by_line_type w user CHAT_LOG_RE;
  match ret with
  | None => mret (lit "user not found " ++ esc user)
  | Some (rank, n) =>
      start ← _log_start_date w;
      mret (esc user ++ lit " is ranked #" ++ str_of_Z rank ++ lit " with "
              ++ str_of_Z n ++ lit " messages (since " ++ start ++ lit ")")
  end.





End Commands.

(** ** Measures used by the further statements *)

Section Shapes.
Context `{Unicode}.

(** Where a greedy repetition stops: at the end of the subject or before a
    character outside the class. *)
Definition stops (a : cls) (rest : str) : Prop :=
  match rest with [] => True | c :: _ => cls_ok a c = false end.

(** A text without any character of [cs]. *)
Definition free_of (cs : str) (t : str) : Prop :=
  forallb (cls_ok (Except cs)) t = true.

(** The key of the counter a line adds one to, if the pattern matches it:
    the lowercase form of the name the match hands over. *)
Definition line_key (reg : pattern) (line : str) : option str :=
  match re_match (pattern_of reg) line with
  | Some m =>
      Some (lower (default [] (if truthy (g_chat m) then g_chat m
                               else g_action m)))
  | None => None
  end.

(** The count a scan of the file at [filename] gives a user, 0 when the
    scan fails. *)
Definition file_count (w : world) (reg : pattern) (filename user : str) : Z :=
  match scan_file w (logs_path filename) reg with
  | Ok c => counter_get c user
  | Raise _ => 0
  end.
End Shapes.

(** The number of distinct counts above a count. *)
Definition counts_above (total : Counter) (count : Z) : nat :=
  size (list_to_set (filter (λ v, count < v) total.*2) : gset Z).

(** The denominator of the fit. *)
Definition fit_denominator (x : list Q) : Q :=
  (Qlen x * Qsum (map (λ xi, xi * xi) x) - Qsum x * Qsum x)%Q.

(** The squared distances of the points of [x] from [a], summed. *)
Definition spread (a : Q) (x : list Q) : Q :=
  Qsum (map (λ xi, (xi - a) * (xi - a))%Q x).

(** * Properties *)

(** ** The matcher against the reading of a pattern *)

Section MatcherFacts.
Context `{Unicode}.

Lemma star_k_sound {R} a ahd : ∀ bef (k : pos → option R) res,
  star_k a bef ahd k = Some res →
  ∃ t rest, ahd = t ++ rest ∧ forallb (cls_ok a) t = true
            ∧ k (Pos (reverse t ++ bef) rest) = Some res.
Proof.
  induction ahd as [|c ahd IH]; intros bef k res Hs; simpl in Hs.
  - by exists [], [].
  - destruct (cls_ok a c) eqn:Hc; [|by exists [], (c :: ahd)].
    destruct (star_k a (c :: bef) ahd k) eqn:Hr; [|by exists [], (c :: ahd)].
    simplify_eq. destruct (IH _ _ _ Hr) as (t & rest & -> & Ht & Hk).
    exists (c :: t), rest. simpl. rewrite Hc, Ht.
    by rewrite reverse_cons, <- app_assoc.
Qed.

Lemma star_k_complete {R} a t : ∀ bef rest (k : pos → option R),
  forallb (cls_ok a) t = true →
  is_Some (k (Pos (reverse t ++ bef) rest)) →
  is_Some (star_k a bef (t ++ rest) k).
Proof.
  induction t as [|c t IH]; intros bef rest k Ht Hk; simpl in *.
  - destruct rest as [|c rest]; simpl; [done|].
    destruct (cls_ok a c); [|done]. destruct (star_k _ _ _ _); eauto.
  - apply andb_true_iff in Ht as [Hc Ht]. rewrite Hc.
    rewrite reverse_cons, <- app_assoc in Hk.
    by destruct (IH (c :: bef) rest k Ht Hk) as [r ->].
Qed.

(** Whatever the matcher returns comes from a match of the pattern
    followed by a success of the rest. *)
Lemma exec_sound r : ∀ p m k res,
  exec r p m k = Some res →
  ∃ p' m', Matches r p m p' m' ∧ k p' m' = Some res.
Proof.
  induction r as [|c|a|a|c| |g r IH|r1 IH1 r2 IH2|r1 IH1 r2 IH2];
    intros [bef ahd] m k res He; simpl in He.
  - destruct bef; [|done]. eauto using Matches.
  - destruct ahd as [|c' rest]; [done|].
    destruct (N.eqb_spec c c'); [subst|done]. eauto using Matches.
  - destruct ahd as [|c rest]; [done|].
    destruct (cls_ok a c) eqn:Hc; [|done].
    apply star_k_sound in He as (t & rest' & -> & Ht & Hk).
    exists (Pos (reverse (c :: t) ++ bef) rest'), m. split.
    + apply (M_Plus a bef (c :: t)); [done|]. simpl. by rewrite Hc.
    + by rewrite reverse_cons, <- app_assoc.
  - apply star_k_sound in He as (t & rest' & -> & Ht & Hk).
    eauto using Matches.
  - destruct ahd as [|c' rest]; [eauto using Matches|].
    destruct (N.eqb_spec c c'); [subst|eauto using Matches].
    destruct (k (Pos (c' :: bef) rest) m) eqn:Hk; [|eauto using Matches].
    simplify_eq. eauto using Matches.
  - destruct (xorb _ _) eqn:Hx; [|done]. eauto using Matches.
  - apply IH in He as (p' & m' & Hm & Hk). eauto using Matches.
  - apply IH1 in He as (p1 & m1 & Hm1 & He).
    apply IH2 in He as (p2 & m2 & Hm2 & Hk). eauto using Matches.
  - destruct (exec r1 _ _ _) eqn:H1.
    + simplify_eq. apply IH1 in H1 as (p' & m' & Hm & Hk).
      eauto using Matches.
    + apply IH2 in He as (p' & m' & Hm & Hk). eauto using Matches.
Qed.

(** The matcher finds a match whenever the pattern has one after which
    the rest succeeds. *)
Lemma exec_complete r p m p' m' :
  Matches r p m p' m' →
  ∀ k, is_Some (k p' m') → is_Some (exec r p m k).
Proof.
  induction 1 as [ahd m|c bef rest m|a bef t rest m Hne Ht|a bef t rest m Ht
                 |c p m|c bef rest m|p m Hx|g r p m p' m' _ IH
                 |r1 r2 p m p1 m1 p2 m2 _ IH1 _ IH2
                 |r1 r2 p m p' m' _ IH|r1 r2 p m p' m' _ IH];
    intros k Hk; simpl.
  - done.
  - by rewrite N.eqb_refl.
  - destruct t as [|c t]; [done|]. simpl in *.
    apply andb_true_iff in Ht as [-> Ht].
    apply star_k_complete; [done|].
    by rewrite reverse_cons, <- app_assoc in Hk.
  - by apply star_k_complete.
  - destruct p as [bef [|c' rest]]; simpl; [done|].
    destruct (c =? c')%N; [|done].
    destruct (k (Pos (c' :: bef) rest) m); eauto.
  - rewrite N.eqb_refl. by destruct Hk as [x ->].
  - by rewrite Hx.
  - by apply IH.
  - apply IH1. by apply IH2.
  - destruct (IH k Hk) as [x ->]. eauto.
  - destruct (exec r1 p m k); [eauto|]. by apply IH.
Qed.

Lemma re_match_sound r line m :
  re_match r line = Some m → ∃ p', Matches r (Pos [] line) no_caps p' m.
Proof.
  intros He. apply exec_sound in He as (p' & m' & Hm & ?).
  simplify_eq. eauto.
Qed.

Lemma re_match_complete r line p' m :
  Matches r (Pos [] line) no_caps p' m → is_Some (re_match r line).
Proof. intros Hm. by apply (exec_complete _ _ _ _ _ Hm). Qed.
End MatcherFacts.

(** ** The three patterns *)

Section PatternFacts.
Context `{Unicode}.

Lemma text_between_app bef bef' t rest :
  text_between (Pos bef (t ++ rest)) (Pos bef' rest) = t.
Proof.
  unfold text_between; simpl. rewrite length_app.
  replace (length t + length rest - length rest)%nat with (length t) by lia.
  by rewrite take_app_length.
Qed.

Ltac inv_matches :=
  repeat match goal with
  | H : Matches (Cat _ _) _ _ _ _ |- _ => inversion H; clear H; subst
  | H : Matches (Alt _ _) _ _ _ _ |- _ => inversion H; clear H; subst
  | H : Matches (Grp _ _) _ _ _ _ |- _ => inversion H; clear H; subst
  | H : Matches (Chr _) _ _ _ _ |- _ => inversion H; clear H; subst
  | H : Matches (Plus _) _ _ _ _ |- _ => inversion H; clear H; subst
  | H : Matches (Star _) _ _ _ _ |- _ => inversion H; clear H; subst
  | H : Matches (OptChr _) _ _ _ _ |- _ => inversion H; clear H; subst
  | H : Matches Bol _ _ _ _ |- _ => inversion H; clear H; subst
  | H : Matches WordB _ _ _ _ |- _ => inversion H; clear H; subst
  end.

(** Turn a successful [re_match pat line] into the shape of [line]. *)
Ltac read_match Hm pat :=
  let p' := fresh "p" in
  apply re_match_sound in Hm as [p' Hm];
  let r := eval vm_compute in pat in change pat with r in Hm;
  inv_matches.

(** A match of the chat pattern fills exactly one of its two groups, and
    with a non-empty name. *)
Lemma chat_log_groups line m :
  re_match CHAT_LOG_RE_pat line = Some m →
  ∃ u, u ≠ [] ∧ (m = Caps (Some u) None ∨ m = Caps None (Some u)).
Proof.
  intros Hm. read_match Hm CHAT_LOG_RE_pat; rewrite text_between_app; eauto.
Qed.

Lemma bonker_groups line m :
  re_match BONKER_RE_pat line = Some m →
  ∃ u, u ≠ [] ∧ m = Caps (Some u) None.
Proof.
  intros Hm. read_match Hm BONKER_RE_pat; rewrite text_between_app; eauto.
Qed.

Lemma bonked_groups line m :
  re_match BONKED_RE_pat line = Some m →
  ∃ u, u ≠ [] ∧ m = Caps (Some u) None.
Proof.
  intros Hm. read_match Hm BONKED_RE_pat; rewrite text_between_app; eauto.
Qed.

(** A line that names the target of a bonk also names who bonked: after
    [!bonk] the target pattern asks for a space, which is where the
    issuer pattern asks for a word boundary. *)
Lemma bonked_bonker line :
  is_Some (re_match BONKED_RE_pat line) →
  is_Some (re_match BONKER_RE_pat line).
Proof.
  intros [m Hm]. read_match Hm BONKED_RE_pat.
  all: eapply re_match_complete.
  all: let r := eval vm_compute in BONKER_RE_pat in
       change BONKER_RE_pat with r.
  all: repeat (eapply M_Cat; [solve [econstructor; eauto]|]).
  all: eapply M_Cat; [eapply M_Grp; econstructor; eauto|].
  all: repeat (eapply M_Cat; [solve [econstructor; eauto]|]).
  all: by apply M_WordB.
Qed.

(** The name a match hands to the counter. *)
Lemma pattern_groups reg line m :
  re_match (pattern_of reg) line = Some m →
  ∃ u, u ≠ [] ∧ (m = Caps (Some u) None
                 ∨ (reg = CHAT_LOG_RE ∧ m = Caps None (Some u))).
Proof.
  destruct reg; simpl; intros Hm.
  - apply chat_log_groups in Hm as (u & ? & [?|?]); eauto.
  - apply bonker_groups in Hm as (u & ? & ?); eauto.
  - apply bonked_groups in Hm as (u & ? & ?); eauto.
Qed.

(** A matching line always counts: neither [match['action_user']] nor
    [assert user] can fail. *)
Lemma scan_line_matched reg counts line m :
  re_match (pattern_of reg) line = Some m →
  ∃ u, u ≠ [] ∧ (m = Caps (Some u) None
                 ∨ (reg = CHAT_LOG_RE ∧ m = Caps None (Some u)))
       ∧ scan_line reg counts line = Ok (counter_add counts (lower u) 1).
Proof.
  intros Hm. destruct (pattern_groups _ _ _ Hm) as (u & Hu & Hcase).
  exists u. split; [done|]. split; [done|].
  unfold scan_line. rewrite Hm.
  destruct u as [|c t]; [done|].
  destruct reg, Hcase as [->|[? ->]]; done.
Qed.

Lemma scan_line_unmatched reg counts line :
  re_match (pattern_of reg) line = None →
  scan_line reg counts line =
    if decide (reg = CHAT_LOG_RE) then Raise AssertionError else Ok counts.
Proof. intros Hm. unfold scan_line. by rewrite Hm. Qed.
End PatternFacts.

(** ** Counters *)

Lemma counter_get_add c k n k' :
  counter_get (counter_add c k n) k' =
    if decide (k = k') then counter_get c k' + n else counter_get c k'.
Proof.
  induction c as [|[k0 v] c IH]; simpl.
  - repeat case_decide; simplify_eq; lia.
  - destruct (decide (k0 = k)) as [->|Hk0]; simpl.
    + repeat case_decide; simplify_eq; done.
    + rewrite IH. repeat case_decide; simplify_eq; done.
Qed.

Lemma counter_total_add c k n :
  counter_total (counter_add c k n) = counter_total c + n.
Proof.
  induction c as [|[k0 v] c IH]; simpl; [lia|].
  case_decide; simpl; unfold counter_total in *; simpl in *; lia.
Qed.

(** ** Lines that match and lines that do not *)

Section LineFacts.
Context `{Unicode}.

(** With a pattern other than the chat pattern a scan cannot fail, and
    it counts one event for every line the pattern matches. *)
Lemma scan_lines_bonk reg lines : ∀ counts,
  reg ≠ CHAT_LOG_RE →
  ∃ c, scan_lines reg counts lines = Ok c
       ∧ counter_total c = counter_total counts + hits (pattern_of reg) lines.
Proof.
  induction lines as [|line lines IH]; intros counts Hreg; simpl.
  - exists counts. split; [done|lia].
  - destruct (re_match (pattern_of reg) line) as [m|] eqn:Hm.
    + destruct (scan_line_matched reg counts line m Hm) as (u & _ & _ & ->).
      simpl. destruct (IH (counter_add counts (lower u) 1) Hreg)
        as (c & -> & Hc).
      exists c. split; [done|]. rewrite Hc, counter_total_add. lia.
    + rewrite (scan_line_unmatched _ _ _ Hm), decide_False by done. simpl.
      destruct (IH counts Hreg) as (c & -> & Hc). eauto.
Qed.

Lemma hits_bonked_le lines :
  hits BONKED_RE_pat lines ≤ hits BONKER_RE_pat lines.
Proof.
  induction lines as [|line lines IH]; simpl; [done|].
  destruct (re_match BONKED_RE_pat line) eqn:Hd.
  - destruct (bonked_bonker line) as [m ->]; [by rewrite Hd|]. lia.
  - destruct (re_match BONKER_RE_pat line); lia.
Qed.

(** C2, as the code has it.  A line the pattern does not match is
    skipped without a trace under the two bonk patterns, and stops the
    scan with [AssertionError] under the chat pattern, whose every line is
    asserted to match.  A line the pattern matches always yields a
    non-empty name and adds one to the count of its lowercase form, so
    the second assertion, [assert user], never fails; under the bonk
    patterns a whole scan therefore never fails. *)
Theorem unmatched_line_outcome :
  (∀ reg counts line,
     match re_match (pattern_of reg) line with
     | None =>
         scan_line reg counts line =
           match reg with
           | CHAT_LOG_RE => Raise AssertionError
           | _ => Ok counts
           end
     | Some m =>
         ∃ u, u ≠ []
              ∧ (m = Caps (Some u) None
                 ∨ (reg = CHAT_LOG_RE ∧ m = Caps None (Some u)))
              ∧ scan_line reg counts line =
                  Ok (counter_add counts (lower u) 1)
     end)
  ∧ (∀ counts lines, ∃ c, scan_lines BONKER_RE counts lines = Ok c)
  ∧ (∀ counts lines, ∃ c, scan_lines BONKED_RE counts lines = Ok c).
Proof.
  split; [|split].
  - intros reg counts line.
    destruct (re_match (pattern_of reg) line) as [m|] eqn:Hm.
    + by apply scan_line_matched.
    + rewrite (scan_line_unmatched _ _ _ Hm). by destruct reg.
  - intros counts lines.
    destruct (scan_lines_bonk BONKER_RE lines counts) as (c & ? & _); eauto.
  - intros counts lines.
    destruct (scan_lines_bonk BONKED_RE lines counts) as (c & ? & _); eauto.
Qed.
End LineFacts.

(** ** Sorting, grouping and ranks *)

Lemma insert_desc_perm p l : insert_desc p l ≡ₚ p :: l.
Proof.
  induction l as [|q l IH]; simpl; [done|].
  destruct (p.2 <? q.2); [|done]. by rewrite IH, Permutation_swap.
Qed.

Lemma sorted_desc_perm l : sorted_desc l ≡ₚ l.
Proof.
  induction l as [|p l IH]; simpl; [done|].
  by rewrite insert_desc_perm, IH.
Qed.

Lemma insert_desc_sorted p l :
  StronglySorted desc l → StronglySorted desc (insert_desc p l).
Proof.
  induction 1 as [|q l Hl IH Hq]; simpl.
  - repeat constructor.
  - destruct (Z.ltb_spec p.2 q.2).
    + constructor; [done|]. rewrite insert_desc_perm. constructor; [|done].
      unfold desc. lia.
    + constructor; [by constructor|]. constructor; [unfold desc; lia|].
      eapply Forall_impl; [done|]. unfold desc; simpl. intros; lia.
Qed.

Lemma sorted_desc_sorted l : StronglySorted desc (sorted_desc l).
Proof.
  induction l; simpl; [constructor|]. by apply insert_desc_sorted.
Qed.

(** The sort is stable: entries of one count keep the order they had. *)
Lemma insert_desc_stable k p l :
  filter (λ q : str * Z, q.2 = k) (insert_desc p l)
  = filter (λ q : str * Z, q.2 = k) (p :: l).
Proof.
  induction l as [|q l IH]; simpl; [done|].
  destruct (Z.ltb_spec p.2 q.2) as [Hlt|Hge]; [|done].
  rewrite (filter_cons _ q), IH, !(filter_cons _ p), !(filter_cons _ q).
  repeat case_decide; try done; lia.
Qed.

Lemma sorted_desc_stable k l :
  filter (λ q : str * Z, q.2 = k) (sorted_desc l)
  = filter (λ q : str * Z, q.2 = k) l.
Proof.
  induction l as [|p l IH]; simpl; [done|].
  by rewrite insert_desc_stable, !filter_cons, IH.
Qed.

Lemma groupby_concat l : concat (groupby l).*2 = l.
Proof.
  induction l as [|p l IH]; simpl; [done|].
  destruct (groupby l) as [|[k g] gs]; simpl in *.
  - by subst.
  - destruct (p.2 =? k); simpl; by rewrite <- IH.
Qed.

Lemma groupby_uniform l :
  Forall (λ g, g.2 ≠ [] ∧ Forall (λ p : str * Z, p.2 = g.1) g.2) (groupby l).
Proof.
  induction l as [|p l IH]; simpl; [constructor|].
  destruct (groupby l) as [|[k g] gs]; simpl in *.
  - repeat constructor; done.
  - apply Forall_cons in IH as [[Hne Hg] Hgs]. simpl in *.
    destruct (Z.eqb_spec p.2 k).
    + constructor; [|done]. split; [done|]. simpl. by constructor.
    + constructor; [by repeat constructor|]. by constructor.
Qed.

Lemma groupby_keys_desc l :
  StronglySorted desc l →
  StronglySorted (λ g1 g2, g2.1 < g1.1) (groupby l).
Proof.
  induction 1 as [|p l Hl IH Hp]; simpl; [constructor|].
  pose proof (groupby_concat l) as Hc. pose proof (groupby_uniform l) as Hu.
  destruct (groupby l) as [|[k g] gs]; simpl in *.
  - repeat constructor.
  - apply StronglySorted_inv in IH as [IH Hk].
    apply Forall_cons in Hu as [[Hne Hg] _]. simpl in *.
    destruct (Z.eqb_spec p.2 k).
    + by constructor.
    + assert (k < p.2) as Hlt.
      { destruct g as [|q g]; [done|].
        apply Forall_cons in Hg as [Hq _].
        rewrite <- Hc in Hp. simpl in Hp. apply Forall_cons in Hp as [Hp _].
        unfold desc in Hp. lia. }
      constructor; [by constructor|]. constructor; [done|].
      eapply Forall_impl; [done|]. simpl. intros; lia.
Qed.

Lemma enumerate_fst {A} (l : list A) s : (enumerate s l).*1 = seqZ s (Z.of_nat (length l)).
Proof.
  revert s; induction l as [|a l IH]; intros s; simpl; [done|].
  rewrite IH. rewrite (seqZ_cons s) by lia. do 2 f_equal; lia.
Qed.

Lemma enumerate_snd {A} (l : list A) s : (enumerate s l).*2 = l.
Proof. revert s; induction l as [|a l IH]; intros s; simpl; [done|]. by rewrite IH. Qed.

Lemma length_enumerate {A} (l : list A) s : length (enumerate s l) = length l.
Proof. by rewrite <- (enumerate_snd l s) at 2; rewrite length_fmap. Qed.

Lemma enumerate_ge {A} (l : list A) s : Forall (λ g, s ≤ g.1) (enumerate s l).
Proof.
  revert s; induction l as [|a l IH]; intros s; simpl; constructor; [simpl; lia|].
  eapply Forall_impl; [apply IH|]. simpl; intros; lia.
Qed.

Lemma enumerate_sorted {A} (R : A → A → Prop) (l : list A) s :
  StronglySorted R l →
  StronglySorted (λ a b, a.1 < b.1 ∧ R a.2 b.2) (enumerate s l).
Proof.
  intros Hl. revert s. induction Hl as [|a l Hl IH Ha]; intros s; simpl; constructor.
  - apply IH.
  - pose proof (enumerate_ge l (s + 1)) as Hge.
    pose proof (enumerate_snd l (s+1)) as Hsnd.
    rewrite <- Hsnd in Ha. rewrite Forall_fmap in Ha.
    apply Forall_forall. intros b Hb.
    rewrite Forall_forall in Hge, Ha. specialize (Hge b Hb). specialize (Ha b Hb).
    simpl in *. split; [lia|done].
Qed.

Lemma tied_rank_members l : members (_tied_rank l) = l.
Proof.
  unfold members, _tied_rank. rewrite <- (groupby_concat l) at 2.
  rewrite <- (enumerate_snd (groupby l) 1) at 2.
  by rewrite <- list_fmap_compose.
Qed.

Lemma find_rank_some u r rank count :
  find_rank u r = Some (rank, count) →
  ∃ users, (rank, (count, users)) ∈ r ∧ u ∈ users.*1.
Proof.
  induction r as [|[rk [ct users]] r IH]; simpl; [done|].
  destruct (existsb _ users) eqn:He.
  - intros [= <- <-]. exists users. split; [left|].
    apply existsb_exists in He as ([v n] & Hin & Hv).
    apply bool_decide_eq_true in Hv. simpl in Hv. subst.
    apply list_elem_of_fmap. exists (v, n). split; [done|].
    by apply list_elem_of_In.
  - intros Hf. destruct (IH Hf) as (us & ? & ?). exists us. split; [by right|done].
Qed.

Lemma find_rank_none u r : find_rank u r = None → u ∉ (members r).*1.
Proof.
  unfold members.
  induction r as [|[rk [ct users]] r IH]; simpl; [intros _; apply not_elem_of_nil|].
  destruct (existsb _ users) eqn:He; [done|]. intros Hf.
  rewrite fmap_app, elem_of_app. intros [Hin|Hin]; [|by apply IH].
  apply list_elem_of_fmap in Hin as ([v n] & Hu & Hin). simpl in Hu. subst u.
  assert (existsb (λ u0 : str * Z, bool_decide (v = u0.1)) users = true);
    [|congruence].
  apply existsb_exists. exists (v, n). split; [by apply list_elem_of_In|].
  by apply bool_decide_eq_true.
Qed.

Lemma group_unique r u g g' :
  NoDup (members r).*1 → g ∈ r → g' ∈ r → u ∈ g.2.2.*1 → u ∈ g'.2.2.*1 → g = g'.
Proof.
  unfold members.
  induction r as [|h r IH]; simpl; [by intros _ ?%elem_of_nil|].
  rewrite fmap_app. intros [Hh [Hd Hr]]%NoDup_app.
  assert (∀ x, x ∈ r → u ∈ x.2.2.*1 → u ∈ (members r).*1) as Hin.
  { intros x Hx Hu. apply list_elem_of_fmap in Hu as (p & -> & Hp).
    apply list_elem_of_fmap. exists p. split; [done|].
    apply list_elem_of_In, in_concat. exists x.2.2.
    split; [|by apply list_elem_of_In].
    apply list_elem_of_In, list_elem_of_fmap. eauto. }
  intros [->|Hg]%elem_of_cons [->|Hg']%elem_of_cons Hu Hu'; [done| | |by apply IH].
  - destruct (Hd u); eauto.
  - destruct (Hd u); eauto.
Qed.

Lemma counter_add_keys c k n :
  (counter_add c k n).*1 = if decide (k ∈ c.*1) then c.*1 else c.*1 ++ [k].
Proof.
  induction c as [|[k0 v] c IH]; [done|].
  cbn [counter_add]. rewrite !fmap_cons. cbn [fst].
  destruct (decide (k0 = k)) as [->|Hne]; rewrite ?fmap_cons; cbn [fst].
  - rewrite decide_True; [done|left].
  - rewrite IH. destruct (decide (k ∈ c.*1)).
    + rewrite decide_True; [done|by right].
    + rewrite decide_False; [done|]. by intros [->|?]%elem_of_cons.
Qed.

Lemma counter_add_NoDup c k n : NoDup c.*1 → NoDup (counter_add c k n).*1.
Proof.
  intros Hc. rewrite counter_add_keys. case_decide; [done|].
  apply NoDup_app. split; [done|]. split; [|apply NoDup_singleton].
  intros x Hx ->%list_elem_of_singleton. done.
Qed.

Lemma counter_update_NoDup c total : NoDup total.*1 → NoDup (counter_update total c).*1.
Proof.
  unfold counter_update. revert total.
  induction c as [|kv c IH]; intros total Ht; simpl; [done|].
  apply IH. by apply counter_add_NoDup.
Qed.

Lemma most_common_perm c : most_common c None ≡ₚ c.
Proof. apply sorted_desc_perm. Qed.

Lemma tied_rank_uniform l :
  Forall (λ g, g.2.2 ≠ [] ∧ Forall (λ p : str * Z, p.2 = g.2.1) g.2.2)
         (_tied_rank l).
Proof.
  unfold _tied_rank. pose proof (groupby_uniform l) as Hu.
  rewrite <- (enumerate_snd (groupby l) 1) in Hu.
  by rewrite Forall_fmap in Hu.
Qed.

Lemma tied_rank_sorted l :
  StronglySorted desc l →
  StronglySorted (λ g1 g2, g1.1 < g2.1 ∧ g2.2.1 < g1.2.1) (_tied_rank l).
Proof.
  intros Hl. unfold _tied_rank.
  by apply (enumerate_sorted (λ g1 g2, g2.1 < g1.1)), groupby_keys_desc.
Qed.

(** C1.  For every counter, the ranked listing numbers its groups 1, 2,
    3, ... without a gap; the groups, read in order, are the entries of the
    counter sorted by descending count; no group is empty and all members
    of a group have the count of the group; and ranks strictly increase
    while counts strictly decrease from group to group, so that two users
    have the same rank exactly when they have the same count.  For the
    counts a:5, b:5, c:3, in whatever order the counter holds them, the
    listing is a first group of a and b with count 5 and a second group
    of c with count 3. *)
Theorem tied_rank_dense_groups :
  (∀ counts : Counter,
     let ranked := _tied_rank (most_common counts None) in
     ranked.*1 = seqZ 1 (Z.of_nat (length ranked))
     ∧ members ranked = most_common counts None
     ∧ most_common counts None ≡ₚ counts
     ∧ Forall (λ g, g.2.2 ≠ [] ∧ Forall (λ p : str * Z, p.2 = g.2.1) g.2.2)
              ranked
     ∧ StronglySorted (λ g1 g2, g1.1 < g2.1 ∧ g2.2.1 < g1.2.1) ranked)
  ∧ _tied_rank (most_common abc_counts None)
    = [(1, (5, [(lit "a", 5); (lit "b", 5)])); (2, (3, [(lit "c", 3)]))]
  ∧ (∀ counts : Counter, counts ≡ₚ abc_counts →
       ∃ tied, _tied_rank (most_common counts None)
               = [(1, (5, tied)); (2, (3, [(lit "c", 3)]))]
               ∧ tied ≡ₚ [(lit "a", 5); (lit "b", 5)]).
Proof.
  split; [|split].
  - intros counts ranked. subst ranked. repeat split.
    + unfold _tied_rank. by rewrite enumerate_fst, length_enumerate.
    + apply tied_rank_members.
    + apply most_common_perm.
    + apply tied_rank_uniform.
    + apply tied_rank_sorted, sorted_desc_sorted.
  - reflexivity.
  - intros counts Hp. symmetry in Hp. apply permutations_Permutation in Hp.
    revert counts Hp. apply (proj1 (Forall_forall _ _)).
    repeat (apply Forall_cons; split); [..|apply Forall_nil];
      eexists; (split; [reflexivity|]);
      solve [reflexivity | apply Permutation_swap].
Qed.

(** ** The memo table *)

Lemma effect_refl w st : effect w st st.
Proof.
  split; [done|]. split; [done|]. split; [done|].
  exists []. split; [done|].
  split; [|split]; intros k; rewrite ?elem_of_nil; tauto.
Qed.

Lemma effect_trans w st1 st2 st3 :
  effect w st1 st2 → effect w st2 st3 → effect w st1 st3.
Proof.
  intros (Hs1 & Hi1 & Ht1 & new1 & He1 & Hl1 & Hst1 & Hsc1)
         (Hs2 & Hi2 & Ht2 & new2 & He2 & Hl2 & Hst2 & Hsc2).
  assert (∀ k, memo st2 !! k = None → memo st1 !! k = None) as Hnone.
  { intros k Hk. destruct (memo st1 !! k) eqn:Hk1; [|done].
    by rewrite (lookup_weaken _ _ _ _ Hk1 Hs1) in Hk. }
  split; [by etrans|]. split; [auto|].
  split; [intros k Hk; by rewrite Ht2, Ht1|].
  exists (new2 ++ new1). split; [by rewrite He2, He1, app_assoc|].
  split; [|split].
  - intros k [[?|?]%elem_of_app|[?|?]%elem_of_app]; eauto.
  - intros k [Hk|Hk]%elem_of_app.
    + destruct (Hst2 k Hk). auto.
    + destruct (Hst1 k Hk) as [? [c Hc]]. split; [done|].
      exists c. by eapply lookup_weaken.
  - intros k [Hk|Hk]%elem_of_app.
    + destruct (Hsc2 k Hk); auto.
    + auto.
Qed.

Lemma effect_log_only w st new :
  (∀ k, Lookup k ∈ new → k.1 ≠ today_path w) →
  (∀ k, Store k ∉ new) →
  (∀ k, Scan k ∈ new → k.1 = today_path w ∨ memo st !! k = None) →
  effect w st (log new st).
Proof.
  intros Hl Hs Hc. split; [done|]. split.
  { intros Hinv k. specialize (Hinv k). simpl. rewrite <- Hinv.
    unfold stores. rewrite filter_app, length_app.
    replace (filter (λ e, e = Store k) new) with (@nil event); [done|].
    symmetry. induction new as [|e new IH]; [done|].
    rewrite filter_cons. case_decide.
    - subst. destruct (Hs k). left.
    - apply IH; intros k'; [intros ?; apply Hl|intros ?; apply (Hs k')|intros ?; apply Hc]; by right. }
  split; [done|].
  exists new. split; [done|]. split; [|split]; [|by intros k ?%Hs|done].
  intros k [?|?%Hs]; auto.
Qed.

Section MemoFacts.
Context `{Unicode}.

Lemma wrapped_run w f reg st :
  _counts_per_file__wrapped__ w f reg st
  = (scan_file w f reg, log [Scan (f, reg)] st).
Proof. reflexivity. Qed.

Lemma memo_run w f reg st :
  _counts_per_file w f reg st =
    match memo st !! (f, reg) with
    | Some c => (Ok c, log [Lookup (f, reg)] st)
    | None =>
        match scan_file w f reg with
        | Ok c => (Ok c, State (<[(f, reg) := c]> (memo st)) (start_memo st)
                           (Store (f, reg) :: Scan (f, reg)
                              :: Lookup (f, reg) :: events st))
        | Raise e => (Raise e, log [Scan (f, reg); Lookup (f, reg)] st)
        end
    end.
Proof.
  unfold _counts_per_file, _counts_per_file__wrapped__, mbind, M_bind,
    memo_get, lift, emit; simpl.
  destruct (memo st !! (f, reg)); [done|].
  by destruct (scan_file w f reg).
Qed.

Lemma stores_cons k e evs :
  stores k (e :: evs) = ((if decide (e = Store k) then 1 else 0) + stores k evs)%nat.
Proof. unfold stores. rewrite filter_cons. by case_decide. Qed.

Lemma wrapped_effect w f reg st :
  f = today_path w → effect w st (_counts_per_file__wrapped__ w f reg st).2.
Proof.
  intros ->. rewrite wrapped_run. apply effect_log_only.
  - by intros k ?%list_elem_of_singleton.
  - by intros k ?%list_elem_of_singleton.
  - intros k [= ->]%list_elem_of_singleton. by left.
Qed.

Lemma memo_effect w f reg st :
  f ≠ today_path w → effect w st (_counts_per_file w f reg st).2.
Proof.
  intros Hf. rewrite memo_run.
  destruct (memo st !! (f, reg)) as [c|] eqn:Hk.
  - apply effect_log_only.
    + by intros k [= ->]%list_elem_of_singleton.
    + by intros k ?%list_elem_of_singleton.
    + by intros k ?%list_elem_of_singleton.
  - destruct (scan_file w f reg) as [c|e]; simpl.
    + split; [by apply insert_subseteq|]. split.
      { intros Hinv k. simpl. rewrite !stores_cons, Hinv.
        rewrite lookup_insert.
        repeat case_decide; simplify_eq; try done.
        by rewrite Hk. }
      split.
      { intros k Hkt. simpl. rewrite lookup_insert_ne; [done|].
        intros <-. done. }
      exists [Store (f, reg); Scan (f, reg); Lookup (f, reg)].
      split; [done|]. split; [|split]; intros k; rewrite !elem_of_cons, !elem_of_nil.
      * intros [[?|[?|[?|[]]]]|[?|[?|[?|[]]]]]; simplify_eq; done.
      * intros [?|[?|[?|[]]]]; simplify_eq. split; [done|].
        simpl. rewrite lookup_insert_eq. eauto.
      * intros [?|[?|[?|[]]]]; simplify_eq. by right.
    + apply effect_log_only; intros k; rewrite !elem_of_cons, !elem_of_nil.
      * intros [?|[?|[]]]; simplify_eq. done.
      * intros [?|[?|[]]]; simplify_eq.
      * intros [?|[?|[]]]; simplify_eq. by right.
Qed.

Lemma logs_path_inj f g : logs_path f = logs_path g → f = g.
Proof. unfold logs_path. by intros ?%app_inv_head. Qed.

Lemma bind_run {A B} (m : M A) (f : A → M B) st :
  (m ≫= f) st = match m st with
                | (Ok a, st') => f a st'
                | (Raise e, st') => (Raise e, st')
                end.
Proof. reflexivity. Qed.

Lemma chat_rank_loop_effect w reg files : ∀ total st,
  effect w st (chat_rank_loop w reg files total st).2.
Proof.
  induction files as [|f files IH]; intros total st; simpl.
  - apply effect_refl.
  - rewrite bind_run. case_decide as Hf.
    + pose proof (memo_effect w (logs_path f) reg st) as He.
      destruct (_counts_per_file _ _ _ _) as [[c|e] st1]; simpl in *.
      * eapply effect_trans; [apply He|apply IH].
        intros ?%logs_path_inj. done.
      * apply He. intros ?%logs_path_inj. done.
    + subst f.
      pose proof (wrapped_effect w _ reg st eq_refl) as He.
      destruct (_counts_per_file__wrapped__ _ _ _ _) as [[c|e] st1]; simpl in *.
      * eapply effect_trans; [apply He|apply IH].
      * apply He.
Qed.



Lemma chatplot_loop_effect w user min_date files : ∀ x y st,
  effect w st (chatplot_loop w user min_date files x y st).2.
Proof.
  induction files as [|f files IH]; intros x y st; simpl.
  - apply effect_refl.
  - case_decide as Hf; [apply IH|].
    rewrite bind_run. unfold lift at 1.
    destruct (fromisoformat _) as [d|e]; [|apply effect_refl].
    rewrite bind_run.
    pose proof (memo_effect w (logs_path f) CHAT_LOG_RE st) as He.
    destruct (_counts_per_file _ _ _ _) as [[c|e] st1]; simpl in *.
    + assert (effect w st st1) by (apply He; by intros ?%logs_path_inj).
      destruct (_ || _); (eapply effect_trans; [done|apply IH]).
    + apply He. by intros ?%logs_path_inj.
Qed.





(** A pass that gets to its end leaves every other file in the table. *)
Lemma chat_rank_loop_memoized w reg files : ∀ total st t st',
  chat_rank_loop w reg files total st = (Ok t, st') →
  ∀ f, f ∈ files → f ≠ today_log w → is_Some (memo st' !! (logs_path f, reg)).
Proof.
  induction files as [|f files IH]; intros total st t st' Hrun g Hin Hg;
    simpl in *.
  - by apply elem_of_nil in Hin.
  - rewrite bind_run in Hrun.
    apply elem_of_cons in Hin as [->|Hin].
    + rewrite decide_True in Hrun by done. rewrite memo_run in Hrun.
      destruct (memo st !! _) as [c|] eqn:Hk;
        [|destruct (scan_file _ _ _) as [c|]; [|done]].
      * pose proof (chat_rank_loop_effect w reg files (counter_update total c)
                      (log [Lookup (logs_path f, reg)] st)) as (Hsub & _).
        rewrite Hrun in Hsub. exists c. by eapply lookup_weaken.
      * match type of Hrun with chat_rank_loop _ _ _ _ ?s = _ =>
          pose proof (chat_rank_loop_effect w reg files (counter_update total c) s)
            as (Hsub & _) end.
        rewrite Hrun in Hsub. exists c. eapply lookup_weaken; [|done].
        simpl. apply lookup_insert_eq.
    + destruct (if decide (f ≠ today_log w) then _ else _) as [[c|e] st1];
        [|done]. by eapply IH.
Qed.

(** Run again in the same world, a pass returns the same totals. *)
Lemma chat_rank_loop_again w reg files : ∀ total st t st',
  chat_rank_loop w reg files total st = (Ok t, st') →
  ∀ st2, memo st' ⊆ memo st2 →
  (chat_rank_loop w reg files total st2).1 = Ok t.
Proof.
  induction files as [|f files IH]; intros total st t st' Hrun st2 Hsub;
    simpl in *.
  - by injection Hrun as -> _.
  - rewrite bind_run in Hrun |- *. case_decide as Hf.
    + rewrite memo_run in Hrun. rewrite memo_run.
      assert (∃ c st1, chat_rank_loop w reg files (counter_update total c) st1
                       = (Ok t, st')
                       ∧ memo st1 !! (logs_path f, reg) = Some c)
        as (c & st1 & Hrest & Hc).
      { destruct (memo st !! _) as [c|] eqn:Hk;
          [|destruct (scan_file _ _ _) as [c|]; [|done]].
        - by exists c, (log [Lookup (logs_path f, reg)] st).
        - eexists c, _. split; [done|]. simpl. apply lookup_insert_eq. }
      pose proof (chat_rank_loop_effect w reg files (counter_update total c) st1)
        as (Hsub1 & _).
      rewrite Hrest in Hsub1. simpl in Hsub1.
      rewrite (lookup_weaken _ _ _ _ Hc (transitivity Hsub1 Hsub)).
      by eapply IH.
    + rewrite wrapped_run in Hrun. rewrite wrapped_run.
      destruct (scan_file _ _ _) as [c|]; [|done]. by eapply IH.
Qed.


Lemma chat_rank_counts_run w reg st :
  _chat_rank_counts w reg st =
    match os_listdir w with
    | Some files => chat_rank_loop w reg files [] st
    | None => (Raise OSError, st)
    end.
Proof. unfold _chat_rank_counts. rewrite bind_run. by destruct (os_listdir w). Qed.

End MemoFacts.

(** ** Rank of a user and the top of the table *)

Section RankFacts.
Context `{Unicode}.

Lemma user_rank_run w username reg st :
  _user_rank_by_line_type w username reg st =
    match _chat_rank_counts w reg st with
    | (Ok total, st') =>
        (Ok (find_rank (lower username)
               (_tied_rank (most_common total None))), st')
    | (Raise e, st') => (Raise e, st')
    end.
Proof. reflexivity. Qed.

Lemma top_n_run w reg n st :
  _top_n_rank_by_line_type w reg n st =
    match _chat_rank_counts w reg st with
    | (Ok total, st') =>
        (Ok (map format_group (_tied_rank (most_common total (Some n)))),
         st')
    | (Raise e, st') => (Raise e, st')
    end.
Proof. reflexivity. Qed.

Lemma chat_rank_loop_NoDup w reg files : ∀ total st t st',
  chat_rank_loop w reg files total st = (Ok t, st') →
  NoDup total.*1 → NoDup t.*1.
Proof.
  induction files as [|f files IH]; intros total st t st' Hrun Hnd;
    simpl in *.
  - by injection Hrun as -> _.
  - rewrite bind_run in Hrun.
    destruct (if decide (f ≠ today_log w) then _ else _) as [[c|e] st1];
      [|done].
    eapply IH; [done|]. by apply counter_update_NoDup.
Qed.

Lemma chat_rank_counts_NoDup w reg st total :
  (_chat_rank_counts w reg st).1 = Ok total → NoDup total.*1.
Proof.
  rewrite chat_rank_counts_run. destruct (os_listdir w) as [files|]; [|done].
  destruct (chat_rank_loop w reg files [] st) as [r st'] eqn:Hrun.
  simpl. intros ->. eapply chat_rank_loop_NoDup; [done|constructor].
Qed.

(** Totals do not change when the pass is run again in the same world. *)
Lemma chat_rank_counts_again w reg st total :
  (_chat_rank_counts w reg st).1 = Ok total →
  ∀ st2, memo (_chat_rank_counts w reg st).2 ⊆ memo st2 →
  (_chat_rank_counts w reg st2).1 = Ok total.
Proof.
  rewrite !chat_rank_counts_run. intros Hok st2.
  rewrite chat_rank_counts_run.
  destruct (os_listdir w) as [files|]; [|done].
  destruct (chat_rank_loop w reg files [] st) as [r st'] eqn:Hrun.
  simpl in *. subst r. by eapply chat_rank_loop_again.
Qed.

Lemma most_common_all (total : Counter) n :
  Z.of_nat (length total) ≤ n →
  most_common total (Some n) = most_common total None.
Proof.
  intros Hn. simpl. apply take_ge.
  rewrite (Permutation_length (sorted_desc_perm total)). lia.
Qed.

(** C4.  Whenever the totals of a pattern can be computed and hold the
    (lowercased) user, the rank and count that [_user_rank_by_line_type]
    returns are those of a group of the top-N listing for any N not below
    the number of users, that group lists the user, and no other group
    does.  The listing is the same whether it is asked for in the same
    state or after the rank, and so is the rank asked for after the
    listing. *)
Theorem rank_agrees_with_top_n w reg username n st total :
  (_chat_rank_counts w reg st).1 = Ok total →
  lower username ∈ total.*1 →
  Z.of_nat (length total) ≤ n →
  let listing := _tied_rank (most_common total (Some n)) in
  let rank_of := _user_rank_by_line_type w username reg in
  let top_n := _top_n_rank_by_line_type w reg n in
  (top_n st).1 = Ok (map format_group listing)
  ∧ (top_n (rank_of st).2).1 = Ok (map format_group listing)
  ∧ (rank_of (top_n st).2).1 = (rank_of st).1
  ∧ ∃ rank count users,
      (rank_of st).1 = Ok (Some (rank, count))
      ∧ (rank, (count, users)) ∈ listing
      ∧ lower username ∈ users.*1
      ∧ ∀ g, g ∈ listing → lower username ∈ g.2.2.*1 →
             g = (rank, (count, users)).
Proof.
  intros Hok Hin Hn listing rank_of top_n.
  subst listing rank_of top_n.
  pose proof (chat_rank_counts_again w reg st total Hok) as Hagain.
  pose proof (chat_rank_counts_NoDup w reg st total Hok) as Hnd.
  rewrite !top_n_run, !user_rank_run.
  assert ((_chat_rank_counts w reg (_chat_rank_counts w reg st).2).1
          = Ok total) as Hok2 by by apply Hagain.
  destruct (_chat_rank_counts w reg st) as [r st'] eqn:Hrun.
  cbn [fst snd] in *. subst r.
  destruct (_chat_rank_counts w reg st') as [r st''] eqn:Hrun2.
  cbn [fst snd] in *. subst r.
  rewrite !Hrun2. cbn [fst snd].
  rewrite (most_common_all total n Hn). split; [done|]. split; [done|].
  split; [done|].
  set (ranked := _tied_rank (most_common total None)).
  assert (members ranked = most_common total None) as Hmem
    by apply tied_rank_members.
  destruct (find_rank (lower username) ranked) as [[rank count]|] eqn:Hfind.
  - destruct (find_rank_some _ _ _ _ Hfind) as (users & Hg & Hu).
    exists rank, count, users. repeat split; try done.
    intros g Hg' Hu'. eapply (group_unique ranked); try done.
    rewrite Hmem. by rewrite (most_common_perm total).
  - apply find_rank_none in Hfind. destruct Hfind.
    rewrite Hmem. by rewrite (most_common_perm total).
Qed.

End RankFacts.


(** ** The linear fit *)

Lemma foldl_Qplus a l : (foldl Qplus a l == a + Qsum l)%Q.
Proof.
  unfold Qsum. revert a. induction l as [|x l IH]; intros a; simpl.
  - ring.
  - rewrite (IH (a + x)%Q), (IH (0 + x)%Q). ring.
Qed.

Lemma Qsum_cons x l : (Qsum (x :: l) == x + Qsum l)%Q.
Proof. unfold Qsum at 1. simpl. rewrite foldl_Qplus. ring. Qed.

Lemma Qlen_cons {A} (a : A) l : (Qlen (a :: l) == Qlen l + 1)%Q.
Proof.
  unfold Qlen. simpl length. rewrite Nat2Z.inj_succ, <- Z.add_1_r.
  by rewrite inject_Z_plus.
Qed.

Lemma Qsum_const x d :
  Forall (λ xi, xi == d)%Q x → (Qsum x == Qlen x * d)%Q.
Proof.
  induction 1 as [|xi x Hxi _ IH].
  - reflexivity.
  - rewrite Qsum_cons, Qlen_cons, IH, Hxi. ring.
Qed.

Lemma Qsum_sq_const x d :
  Forall (λ xi, xi == d)%Q x →
  (Qsum (map (λ xi, xi * xi) x) == Qlen x * (d * d))%Q.
Proof.
  induction 1 as [|xi x Hxi _ IH].
  - reflexivity.
  - rewrite fmap_cons, Qsum_cons, Qlen_cons, IH, Hxi. ring.
Qed.

Lemma truediv_zero a b : (b == 0)%Q → truediv a b = Raise ZeroDivisionError.
Proof. intros Hb. unfold truediv. by rewrite (proj2 (Qeq_bool_iff b 0) Hb). Qed.

Lemma truediv_ok a b q :
  truediv a b = Ok q → ¬ (b == 0)%Q ∧ (q * b == a)%Q.
Proof.
  unfold truediv. destruct (Qeq_bool b 0) eqn:Hb; [done|].
  intros [= <-]. assert (¬ (b == 0)%Q) as Hnz.
  { intros Hz. apply Qeq_bool_iff in Hz. congruence. }
  split; [done|]. rewrite Qred_correct. by field.
Qed.

Lemma lin_regr_degenerate x y d :
  Forall (λ xi, xi == d)%Q x → lin_regr x y = Raise ZeroDivisionError.
Proof.
  intros Hx. unfold lin_regr.
  rewrite truediv_zero; [done|]. fold (Qlen x).
  rewrite (Qsum_const x d Hx), (Qsum_sq_const x d Hx). ring.
Qed.

Lemma lin_regr_ok x y a b :
  lin_regr x y = Ok (a, b) →
  let sum_x := Qsum x in
  let sum_xx := Qsum (map (λ xi, xi * xi)%Q x) in
  let sum_y := Qsum y in
  let sum_xy := Qsum (zip_with Qmult x y) in
  (a * sum_xx + b * sum_x == sum_xy)%Q
  ∧ (a * sum_x + b * Qlen x == sum_y)%Q.
Proof.
  intros Hr sum_x sum_xx sum_y sum_xy.
  unfold lin_regr in Hr. fold (Qlen x) in Hr.
  fold sum_x sum_xx sum_y sum_xy in Hr.
  destruct (truediv (sum_y * sum_xx - sum_x * sum_xy) _) as [b'|] eqn:Hb;
    [|done]. simpl in Hr.
  destruct (truediv (sum_xy - b' * sum_x) sum_xx) as [a'|] eqn:Ha; [|done].
  simpl in Hr. injection Hr as -> ->.
  apply truediv_ok in Hb as [HD Hb]. apply truediv_ok in Ha as [Hxx Ha].
  split.
  - rewrite Ha. ring.
  - apply (Qmult_inj_r _ _ sum_xx Hxx).
    transitivity (a * sum_xx * sum_x
                  + (b * (Qlen x * sum_xx - sum_x * sum_x) + b * sum_x * sum_x))%Q;
      [ring|].
    rewrite Ha, Hb. ring.
Qed.

Lemma chatplot_fit_short user x y :
  (length x < 2)%nat → chatplot_fit user x y = Ok (NeedTwoDays user).
Proof.
  intros Hx. unfold chatplot_fit.
  by rewrite (proj2 (Nat.ltb_lt _ _) Hx).
Qed.

Lemma chatplot_fit_degenerate user x y d :
  (2 ≤ length x)%nat → Forall (λ xi, xi = d) x →
  chatplot_fit user x y = Raise ZeroDivisionError.
Proof.
  intros Hx Hd. unfold chatplot_fit.
  rewrite (proj2 (Nat.ltb_ge _ _) Hx).
  rewrite (lin_regr_degenerate _ _ (inject_Z d)); [done|].
  rewrite Forall_fmap. eapply Forall_impl; [done|]. by intros ? ->.
Qed.

(** ** The daily series *)

Section TrendFacts.
Context `{Unicode}.

Lemma memo_result w f reg st c st1 :
  _counts_per_file w f reg st = (Ok c, st1) → memo st1 !! (f, reg) = Some c.
Proof.
  rewrite memo_run. destruct (memo st !! (f, reg)) as [c'|] eqn:Hk.
  - by intros [= <- <-].
  - destruct (scan_file w f reg); [|done]. intros [= <- <-]. simpl.
    apply lookup_insert_eq.
Qed.

Lemma chatplot_loop_series w user min_date files : ∀ x0 y0 st x y st',
  chatplot_loop w user min_date files x0 y0 st = (Ok (x, y), st') →
  let days := map (λ f, (day_offset min_date f, count_in st' user f))
                  (filter (λ f, f ≠ today_log w) files) in
  let kept := series_from (negb (bool_decide (x0 = []))) days in
  x = x0 ++ kept.*1 ∧ y = y0 ++ kept.*2.
Proof.
  induction files as [|f files IH]; intros x0 y0 st x y st' Hrun; simpl in *.
  - injection Hrun as <- <- _. destruct (negb _); simpl; by rewrite !app_nil_r.
  - rewrite filter_cons. case_decide as Hf.
    { rewrite decide_False by (by intros []). by eapply IH. }
    rewrite decide_True by done.
    rewrite bind_run in Hrun. unfold lift at 1 in Hrun.
    destruct (fromisoformat (before_dot f)) as [d|] eqn:Hd; [|done].
    assert (day_offset min_date f = toordinal d - toordinal min_date) as Hoff.
    { unfold day_offset. by rewrite Hd. }
    rewrite bind_run in Hrun.
    destruct (_counts_per_file _ _ _ _) as [[c|] st1] eqn:Hc; [|done].
    apply memo_result in Hc.
    assert (count_in st' user f = counter_get c user) as Hcount.
    { unfold count_in.
      assert (memo st1 ⊆ memo st') as Hsub.
      { destruct (_ || _);
          match type of Hrun with chatplot_loop _ _ _ _ ?a ?b ?s = _ =>
            pose proof (chatplot_loop_effect w user min_date files a b s)
              as (Hsub & _) end; by rewrite Hrun in Hsub. }
      by rewrite (lookup_weaken _ _ _ _ Hc Hsub). }
    rewrite fmap_cons, Hcount, Hoff.
    destruct (bool_decide (x0 = [])) eqn:Hx0; simpl in *.
    + destruct (Z.eqb_spec (counter_get c user) 0) as [Hz|Hz]; simpl in *.
      * apply IH in Hrun. by rewrite Hx0 in Hrun.
      * apply IH in Hrun. simpl in Hrun.
        rewrite bool_decide_eq_false_2 in Hrun by (by destruct x0).
        simpl in Hrun. by rewrite <- !app_assoc in Hrun.
    + apply IH in Hrun. simpl in Hrun.
      rewrite bool_decide_eq_false_2 in Hrun by (by destruct x0).
      simpl in Hrun. by rewrite <- !app_assoc in Hrun.
Qed.

Lemma cmd_chatplot_run w user_arg st :
  cmd_chatplot w user_arg st =
    match _log_start_date w st with
    | (Ok start, st0) =>
        match fromisoformat start with
        | Ok min_date =>
            match os_listdir w with
            | Some files =>
                match chatplot_loop w (lower user_arg) min_date
                        (sorted files) [] [] st0 with
                | (Ok xy, st1) =>
                    (chatplot_fit (lower user_arg) xy.1 xy.2, st1)
                | (Raise e, st1) => (Raise e, st1)
                end
            | None => (Raise OSError, st0)
            end
        | Raise e => (Raise e, st0)
        end
    | (Raise e, st0) => (Raise e, st0)
    end.
Proof.
  unfold cmd_chatplot. rewrite bind_run.
  destruct (_log_start_date w st) as [[start|e] st0]; [|done].
  rewrite bind_run. unfold lift at 1.
  destruct (fromisoformat start) as [d|e]; [|done].
  rewrite bind_run. unfold lift at 1.
  destruct (os_listdir w) as [files|]; [|done]. simpl.
  rewrite bind_run. by destruct (chatplot_loop _ _ _ _ _ _ _) as [[xy|e] st1].
Qed.

(** C7.  The fit solves the two normal equations of least squares in
    closed form: whenever it returns [(a, b)], the slope [a] and the
    intercept [b] satisfy them for the sums of the input.  For the series
    (0,1), (1,2), (2,3), (3,4) it returns slope 1 and intercept 1 (exactly:
    every operation on these integers is exact in floating point too).  A
    series of fewer than two points is not fitted: the command answers
    with the text that two days of data are needed. *)
Theorem linear_fit_closed_form :
  lin_regr [0; 1; 2; 3]%Q [1; 2; 3; 4]%Q = Ok (1, 1)%Q
  ∧ (∀ user, chatplot_fit user [0; 1; 2; 3] [1; 2; 3; 4]
             = Ok (Plot [0; 1; 2; 3] [1; 2; 3; 4] 1 1))
  ∧ (∀ x y a b, lin_regr x y = Ok (a, b) →
       (a * Qsum (map (λ xi, xi * xi) x) + b * Qsum x
        == Qsum (zip_with Qmult x y))%Q
       ∧ (a * Qsum x + b * Qlen x == Qsum y)%Q)
  ∧ (∀ user x y, (length x < 2)%nat →
       chatplot_fit user x y = Ok (NeedTwoDays user))
  ∧ (∀ w user_arg st start st0 min_date files x y st1,
       _log_start_date w st = (Ok start, st0) →
       fromisoformat start = Ok min_date →
       os_listdir w = Some files →
       chatplot_loop w (lower user_arg) min_date (sorted files) [] [] st0
       = (Ok (x, y), st1) →
       (length x < 2)%nat →
       cmd_chatplot w user_arg st = (Ok (NeedTwoDays (lower user_arg)), st1))
  ∧ (cmd_chatplot plot_world (lit "nobody") init).1
    = Ok (NeedTwoDays (lit "nobody")).
Proof.
  split; [reflexivity|]. split; [reflexivity|]. split; [|split; [|split]].
  - intros x y a b Hr. by apply lin_regr_ok.
  - apply chatplot_fit_short.
  - intros w user_arg st start st0 min_date files x y st1 H0 H1 H2 H3 Hx.
    rewrite cmd_chatplot_run, H0, H1, H2, H3. simpl.
    by rewrite chatplot_fit_short.
  - reflexivity.
Qed.

(** C8.  When the loop of [cmd_chatplot] gets through the files, the series
    it has built is the list of the pairs (day offset, count of the user),
    one for every file other than today's, in the order of the files,
    without the pairs of count zero that come before the first pair of
    non-zero count: those are left out, every later pair is kept, whatever
    its count. *)
Theorem series_omits_leading_zero_days w user min_date files st x y :
  (chatplot_loop w user min_date files [] [] st).1 = Ok (x, y) →
  let st' := (chatplot_loop w user min_date files [] [] st).2 in
  let days := map (λ f, (day_offset min_date f, count_in st' user f))
                  (filter (λ f, f ≠ today_log w) files) in
  x = (skip_leading_zeros days).*1 ∧ y = (skip_leading_zeros days).*2.
Proof.
  destruct (chatplot_loop w user min_date files [] [] st) as [r st'] eqn:Hrun.
  simpl. intros ->. by apply chatplot_loop_series in Hrun.
Qed.

(** C6, as the code has it.  On a series whose day offsets all coincide
    the fit raises [ZeroDivisionError] at its first division and returns
    nothing.  [cmd_chatplot] has no handler: it answers a series of fewer
    than two points with its text, and ends with the exception of the fit
    on any longer series of coinciding offsets. *)
Theorem degenerate_fit_raises :
  (∀ x y d, Forall (λ xi, xi == d)%Q x →
     lin_regr x y = Raise ZeroDivisionError)
  ∧ (∀ user x y d, Forall (λ xi, xi = d) x →
       chatplot_fit user x y =
         if (length x <? 2)%nat then Ok (NeedTwoDays user)
         else Raise ZeroDivisionError)
  ∧ (∀ w user_arg st start st0 min_date files x y st1,
       _log_start_date w st = (Ok start, st0) →
       fromisoformat start = Ok min_date →
       os_listdir w = Some files →
       chatplot_loop w (lower user_arg) min_date (sorted files) [] [] st0
       = (Ok (x, y), st1) →
       cmd_chatplot w user_arg st = (chatplot_fit (lower user_arg) x y, st1)).
Proof.
  split; [apply lin_regr_degenerate|]. split.
  - intros user x y d Hd. destruct (length x <? 2)%nat eqn:Hlen.
    + apply chatplot_fit_short. by apply Nat.ltb_lt.
    + apply (chatplot_fit_degenerate _ _ _ d); [|done]. by apply Nat.ltb_ge.
  - intros w user_arg st start st0 min_date files x y st1 H0 H1 H2 H3.
    by rewrite cmd_chatplot_run, H0, H1, H2, H3.
Qed.

End TrendFacts.

(** ** Bonks issued and bonks received *)

Lemma counter_total_update c : ∀ total,
  counter_total (counter_update total c) = counter_total total + counter_total c.
Proof.
  unfold counter_update.
  induction c as [|[k v] c IH]; intros total; simpl.
  - change (counter_total []) with 0. lia.
  - rewrite IH, counter_total_add.
    change (counter_total ((k, v) :: c)) with (v + counter_total c). lia.
Qed.

Section BonkFacts.
Context `{Unicode}.

Lemma memo_fresh_init w : memo_fresh w init.
Proof. intros f reg c. simpl. by rewrite lookup_empty. Qed.

Lemma memo_call_fresh w f reg st :
  memo_fresh w st →
  (_counts_per_file w f reg st).1 = scan_file w f reg
  ∧ memo_fresh w (_counts_per_file w f reg st).2.
Proof.
  intros Hfr. rewrite memo_run.
  destruct (memo st !! (f, reg)) as [c|] eqn:Hk.
  - split; [by rewrite (Hfr _ _ _ Hk)|done].
  - destruct (scan_file w f reg) as [c|e] eqn:Hs; simpl; (split; [done|]);
      [|done].
    intros f' reg' c'. simpl. rewrite lookup_insert.
    case_decide; [|by apply Hfr]. by intros; simplify_eq.
Qed.

Lemma chat_rank_loop_fresh w reg files : ∀ total st,
  memo_fresh w st →
  (chat_rank_loop w reg files total st).1 = totals_of w reg files total
  ∧ memo_fresh w (chat_rank_loop w reg files total st).2.
Proof.
  induction files as [|f files IH]; intros total st Hfr; simpl; [done|].
  rewrite bind_run. case_decide.
  - destruct (memo_call_fresh w (logs_path f) reg st Hfr) as [Hr Hfr1].
    destruct (_counts_per_file w (logs_path f) reg st) as [r st1].
    simpl in Hr, Hfr1. subst r.
    destruct (scan_file w (logs_path f) reg) as [c|e]; simpl; [|done].
    by apply IH.
  - rewrite wrapped_run.
    destruct (scan_file w (logs_path f) reg) as [c|e]; simpl; [|done].
    by apply IH.
Qed.

Lemma chat_rank_counts_fresh w reg st :
  memo_fresh w st →
  (_chat_rank_counts w reg st).1
  = (files ← of_option OSError (os_listdir w); totals_of w reg files [])
  ∧ memo_fresh w (_chat_rank_counts w reg st).2.
Proof.
  intros Hfr. rewrite chat_rank_counts_run.
  destruct (os_listdir w) as [files|]; simpl; [|done].
  by apply chat_rank_loop_fresh.
Qed.

Lemma scan_file_bonk w f :
  match scan_file w f BONKED_RE, scan_file w f BONKER_RE with
  | Ok received, Ok issued => counter_total received ≤ counter_total issued
  | Raise e1, Raise e2 => e1 = e2
  | _, _ => False
  end.
Proof.
  unfold scan_file. destruct (os_open w f) as [lines|]; simpl; [|done].
  destruct (scan_lines_bonk BONKED_RE lines []) as (c1 & -> & Hc1); [done|].
  destruct (scan_lines_bonk BONKER_RE lines []) as (c2 & -> & Hc2); [done|].
  rewrite Hc1, Hc2. simpl. pose proof (hits_bonked_le lines). lia.
Qed.

Lemma totals_of_bonk w files : ∀ t1 t2,
  counter_total t1 ≤ counter_total t2 →
  match totals_of w BONKED_RE files t1, totals_of w BONKER_RE files t2 with
  | Ok received, Ok issued => counter_total received ≤ counter_total issued
  | Raise e1, Raise e2 => e1 = e2
  | _, _ => False
  end.
Proof.
  induction files as [|f files IH]; intros t1 t2 Ht; simpl; [done|].
  pose proof (scan_file_bonk w (logs_path f)) as Hf.
  destruct (scan_file w (logs_path f) BONKED_RE) as [c1|],
           (scan_file w (logs_path f) BONKER_RE) as [c2|]; simpl; try done.
  apply IH. rewrite !counter_total_update. lia.
Qed.

(** C10.  Whenever the bonk-received pattern matches a line, so does the
    bonk-issued pattern; hence over any lines the scan for targets
    counts no more events than the scan for issuers (both scans always
    succeed, and each counts exactly the lines its pattern matches).  The
    same holds for the totals over the directory, in any states whose
    memo tables agree with the files, as they do in a process that has
    seen the files in this state only: the two passes fail alike, on a
    file or a directory that cannot be read, or the total received is at
    most the total issued. *)
Theorem bonked_at_most_bonker :
  (∀ line, is_Some (re_match BONKED_RE_pat line) →
           is_Some (re_match BONKER_RE_pat line))
  ∧ (∀ lines, ∃ received issued,
       scan_lines BONKED_RE [] lines = Ok received
       ∧ scan_lines BONKER_RE [] lines = Ok issued
       ∧ counter_total received = hits BONKED_RE_pat lines
       ∧ counter_total issued = hits BONKER_RE_pat lines
       ∧ counter_total received ≤ counter_total issued)
  ∧ (∀ w st1 st2, memo_fresh w st1 → memo_fresh w st2 →
       match (_chat_rank_counts w BONKED_RE st1).1,
             (_chat_rank_counts w BONKER_RE st2).1 with
       | Ok received, Ok issued =>
           counter_total received ≤ counter_total issued
       | Raise e1, Raise e2 => e1 = e2
       | _, _ => False
       end)
  ∧ (∀ w, memo_fresh w init
          ∧ ∀ reg st, memo_fresh w st →
                      memo_fresh w (_chat_rank_counts w reg st).2).
Proof.
  split; [apply bonked_bonker|]. split; [|split].
  - intros lines.
    destruct (scan_lines_bonk BONKED_RE lines []) as (c1 & H1 & Hc1); [done|].
    destruct (scan_lines_bonk BONKER_RE lines []) as (c2 & H2 & Hc2); [done|].
    exists c1, c2. simpl in *. repeat split; try done.
    rewrite Hc1, Hc2. apply hits_bonked_le.
  - intros w st1 st2 Hf1 Hf2.
    rewrite (proj1 (chat_rank_counts_fresh w BONKED_RE st1 Hf1)).
    rewrite (proj1 (chat_rank_counts_fresh w BONKER_RE st2 Hf2)).
    destruct (os_listdir w) as [files|]; simpl; [|done].
    by apply totals_of_bonk.
  - intros w. split; [apply memo_fresh_init|].
    intros reg st Hfr. by apply chat_rank_counts_fresh.
Qed.
End BonkFacts.

(** ** The statements on the sample logs

    The sample logs are ASCII text, on which the Unicode tables are never
    consulted; [ascii_text] stands in for them. *)

Section Samples.
#[local] Existing Instance ascii_text.

Ltac by_compute :=
  match goal with |- ?P => apply (bool_decide_unpack P) end;
  vm_compute; exact I.

(** C2 fails on the code for the chat pattern: a line of the server in a
    log is not skipped, it stops the scan, and with it the command, by the
    assertion that every line is a chat line. *)
Lemma chat_scan_stops_at_unmatched_line :
  re_match CHAT_LOG_RE_pat (lit "[12:01] -!- bar has joined" ++ nl) = None
  ∧ scan_line CHAT_LOG_RE [(lit "foo", 1)]
      (lit "[12:01] -!- bar has joined" ++ nl)
    = Raise AssertionError
  ∧ (_counts_per_file__wrapped__ notice_world (lit "logs/2021-03-01.log")
       CHAT_LOG_RE init).1
    = Raise AssertionError
  ∧ (_user_rank_by_line_type notice_world (lit "foo") CHAT_LOG_RE init).1
    = Raise AssertionError
  ∧ (_user_rank_by_line_type notice_world (lit "foo") BONKER_RE init).1
    = Ok (Some (1, 1)).
Proof. repeat split; reflexivity. Qed.

(** C6 fails on the code: with two files of one day in the directory the
    offsets coincide, the fit divides by zero, and the command ends with
    the exception instead of an answer. *)
Lemma same_day_plot_raises :
  lin_regr [3; 3]%Q [1; 2]%Q = Raise ZeroDivisionError
  ∧ (chatplot_loop same_day_world (lit "foo") (Date 2021 3 1)
       (sorted [lit "2021-03-01.log"; lit "2021-03-01.log.bak"]) [] []
       init).1
    = Ok ([0; 0], [1; 1])
  ∧ (cmd_chatplot same_day_world (lit "foo") init).1
    = Raise ZeroDivisionError.
Proof. repeat split; reflexivity. Qed.

Lemma tied_rank_dense_groups_witness :
  [(lit "c", 3); (lit "b", 5); (lit "a", 5)] ≡ₚ abc_counts
  ∧ ∃ tied,
      _tied_rank (most_common [(lit "c", 3); (lit "b", 5); (lit "a", 5)] None)
      = [(1, (5, tied)); (2, (3, [(lit "c", 3)]))]
      ∧ tied ≡ₚ [(lit "a", 5); (lit "b", 5)].
Proof.
  assert ([(lit "c", 3); (lit "b", 5); (lit "a", 5)] ≡ₚ abc_counts) as Hp.
  { symmetry. apply permutations_Permutation. by_compute. }
  split; [exact Hp|].
  exact (proj2 (proj2 tied_rank_dense_groups) _ Hp).
Defined.

Lemma bonked_at_most_bonker_witness :
  is_Some (re_match BONKED_RE_pat (lit "[12:02] <foo> !bonk @bar" ++ nl))
  ∧ is_Some (re_match BONKER_RE_pat (lit "[12:02] <foo> !bonk @bar" ++ nl)).
Proof.
  assert (is_Some (re_match BONKED_RE_pat
                     (lit "[12:02] <foo> !bonk @bar" ++ nl))) as Hd.
  { by_compute. }
  split; [exact Hd|].
  exact (proj1 (bonked_at_most_bonker (H:=ascii_text)) _ Hd).
Defined.

Lemma rank_agrees_with_top_n_witness :
  let total := [(lit "a", 5); (lit "b", 5); (lit "c", 5); (lit "d", 3)] in
  (_chat_rank_counts ties_world CHAT_LOG_RE init).1 = Ok total
  ∧ lower (lit "C") ∈ total.*1
  ∧ Z.of_nat (length total) ≤ 4
  ∧ ∃ rank count users,
      (_user_rank_by_line_type ties_world (lit "C") CHAT_LOG_RE init).1
      = Ok (Some (rank, count))
      ∧ (rank, (count, users)) ∈ _tied_rank (most_common total (Some 4))
      ∧ lower (lit "C") ∈ users.*1
      ∧ ∀ g, g ∈ _tied_rank (most_common total (Some 4)) →
             lower (lit "C") ∈ g.2.2.*1 → g = (rank, (count, users)).
Proof.
  intros total.
  assert ((_chat_rank_counts ties_world CHAT_LOG_RE init).1 = Ok total)
    as H1 by reflexivity.
  assert (lower (lit "C") ∈ total.*1) as H2 by by_compute.
  assert (Z.of_nat (length total) ≤ 4) as H3 by (vm_compute; discriminate).
  split; [exact H1|]. split; [exact H2|]. split; [exact H3|].
  exact (proj2 (proj2 (proj2
           (rank_agrees_with_top_n ties_world CHAT_LOG_RE (lit "C") 4 init
              total H1 H2 H3)))).
Defined.


Lemma degenerate_fit_raises_witness :
  Forall (λ xi, xi == 3)%Q [3; 6 # 2]%Q
  ∧ lin_regr [3; 6 # 2]%Q [1; 2]%Q = Raise ZeroDivisionError.
Proof.
  assert (Forall (λ xi, xi == 3)%Q [3; 6 # 2]%Q) as Hx
    by (repeat constructor).
  split; [exact Hx|].
  exact (proj1 (degenerate_fit_raises (H:=ascii_text)) _ _ _ Hx).
Defined.

Lemma linear_fit_closed_form_witness :
  (length [7] < 2)%nat
  ∧ chatplot_fit (lit "foo") [7] [4] = Ok (NeedTwoDays (lit "foo")).
Proof.
  assert (length [7] < 2)%nat as Hx by (vm_compute; lia).
  split; [exact Hx|].
  exact (proj1 (proj2 (proj2 (proj2
           (linear_fit_closed_form (H:=ascii_text)))))
           (lit "foo") [7] [4] Hx).
Defined.

Lemma series_omits_leading_zero_days_witness :
  let files := [lit "2021-03-01.log"; lit "2021-03-02.log";
                lit "2021-03-03.log"; lit "2021-03-04.log";
                lit "2021-03-05.log"] in
  let loop :=
    chatplot_loop plot_world (lit "foo") (Date 2021 3 1) files [] [] init in
  let days := map (λ f, (day_offset (Date 2021 3 1) f,
                         count_in loop.2 (lit "foo") f))
                  (filter (λ f, f ≠ today_log plot_world) files) in
  sorted (default [] (os_listdir plot_world)) = files
  ∧ days = [(0, 0); (1, 2); (2, 0); (3, 2)]
  ∧ loop.1 = Ok ([1; 2; 3], [2; 0; 2])
  ∧ [1; 2; 3] = (skip_leading_zeros days).*1
  ∧ [2; 0; 2] = (skip_leading_zeros days).*2.
Proof.
  intros files loop days.
  assert (loop.1 = Ok ([1; 2; 3], [2; 0; 2])) as H1 by reflexivity.
  split; [reflexivity|]. split; [reflexivity|]. split; [exact H1|].
  exact (series_omits_leading_zero_days plot_world (lit "foo") (Date 2021 3 1)
           files init _ _ H1).
Defined.

End Samples.


(** * Further properties *)

(** ** What the patterns take from a line *)

Section ExtractionFacts.
Context `{Unicode}.


Lemma star_k_max {R} a t : ∀ bef rest (k : pos → option R) r,
  forallb (cls_ok a) t = true → stops a rest →
  k (Pos (reverse t ++ bef) rest) = Some r →
  star_k a bef (t ++ rest) k = Some r.
Proof.
  induction t as [|c t IH]; intros bef rest k r Ht Hstop Hk; simpl in *.
  - destruct rest as [|c rest]; simpl in *; [done|]. by rewrite Hstop.
  - apply andb_true_iff in Ht as [-> Ht].
    rewrite reverse_cons, <- app_assoc in Hk.
    by rewrite (IH (c :: bef) rest k r Ht Hstop Hk).
Qed.

Lemma plus_max a t bef rest m k r :
  t ≠ [] → forallb (cls_ok a) t = true → stops a rest →
  k (Pos (reverse t ++ bef) rest) m = Some r →
  exec (Plus a) (Pos bef (t ++ rest)) m k = Some r.
Proof.
  intros Hne Ht Hstop Hk. destruct t as [|c t]; [done|]. simpl in *.
  apply andb_true_iff in Ht as [-> Ht].
  apply star_k_max; [done..|].
  by rewrite reverse_cons, <- app_assoc in Hk.
Qed.

Lemma star_max a t bef rest m k r :
  forallb (cls_ok a) t = true → stops a rest →
  k (Pos (reverse t ++ bef) rest) m = Some r →
  exec (Star a) (Pos bef (t ++ rest)) m k = Some r.
Proof. intros Ht Hstop Hk. simpl. by apply star_k_max. Qed.


Lemma exec_cat r1 r2 p m k :
  exec (Cat r1 r2) p m k = exec r1 p m (λ p' m', exec r2 p' m' k).
Proof. done. Qed.

Lemma exec_chr c bef rest m k :
  exec (Chr c) (Pos bef (c :: rest)) m k = k (Pos (c :: bef) rest) m.
Proof. simpl. by rewrite N.eqb_refl. Qed.

Lemma exec_grp g r p m k :
  exec (Grp g r) p m k
  = exec r p m (λ p' m', k p' (set_group g (text_between p p') m')).
Proof. done. Qed.

Lemma exec_bol ahd m k : exec Bol (Pos [] ahd) m k = k (Pos [] ahd) m.
Proof. done. Qed.

Lemma exec_alt_l r1 r2 p m k res :
  exec r1 p m k = Some res → exec (Alt r1 r2) p m k = Some res.
Proof. simpl. by intros ->. Qed.

Lemma exec_alt_r r1 r2 p m k :
  exec r1 p m k = None → exec (Alt r1 r2) p m k = exec r2 p m k.
Proof. simpl. by intros ->. Qed.

Ltac steps :=
  repeat (progress (rewrite ?exec_cat, ?exec_bol, ?exec_chr, ?exec_grp;
                    cbv beta)).

Lemma stamp_run ts pre rest r k res :
  ts ≠ [] → free_of (lit "]") ts → free_of (lit "<*") pre →
  stops (Except (lit "<*")) rest →
  exec r (Pos (reverse pre ++ cp "]" :: reverse ts ++ [cp "["]) rest)
       no_caps k = Some res →
  exec (stamp r) (Pos [] (cp "[" :: ts ++ cp "]" :: pre ++ rest)) no_caps k
  = Some res.
Proof.
  intros Hts Hfree Hpre Hstop Hr. unfold stamp. steps.
  apply plus_max; [done|done|by unfold stops|]. steps.
  by apply star_max.
Qed.


Lemma chat_message_match ts pre u rest :
  ts ≠ [] → free_of (lit "]") ts → free_of (lit "<*") pre →
  u ≠ [] → free_of (lit ">") u →
  re_match CHAT_LOG_RE_pat
    (lit "[" ++ ts ++ lit "]" ++ pre ++ lit "<" ++ u ++ lit ">" ++ rest)
  = Some (Caps (Some u) None).
Proof.
  intros Hts Hfts Hpre Hu Hfu. unfold re_match, CHAT_LOG_RE_pat.
  refine (stamp_run ts pre (cp "<" :: u ++ cp ">" :: rest) _ _ _
            Hts Hfts Hpre _ _); [done|].
  apply exec_alt_l. steps.
  apply plus_max; [done|done|by unfold stops|]. steps.
  by rewrite text_between_app.
Qed.

Lemma exec_chr_ne c c' bef rest m k :
  c ≠ c' → exec (Chr c) (Pos bef (c' :: rest)) m k = None.
Proof. intros Hc. simpl. by rewrite (proj2 (N.eqb_neq c c') Hc). Qed.

Lemma exec_wordb p m k :
  xorb (word_at (head (before p))) (word_at (head (ahead p))) = true →
  exec WordB p m k = k p m.
Proof. simpl. by intros ->. Qed.

Lemma exec_opt_yes c bef rest m k res :
  k (Pos (c :: bef) rest) m = Some res →
  exec (OptChr c) (Pos bef (c :: rest)) m k = Some res.
Proof. simpl. rewrite N.eqb_refl. by intros ->. Qed.

Lemma exec_opt_no c p m k :
  head (ahead p) ≠ Some c → exec (OptChr c) p m k = k p m.
Proof.
  destruct p as [bef [|c' rest]]; simpl; [done|]. intros Hc.
  destruct (N.eqb_spec c c'); [by subst|done].
Qed.

Lemma chat_action_match ts pre u rest :
  ts ≠ [] → free_of (lit "]") ts → free_of (lit "<*") pre →
  u ≠ [] → free_of (lit " ") u → stops (Except (lit " ")) rest →
  re_match CHAT_LOG_RE_pat
    (lit "[" ++ ts ++ lit "]" ++ pre ++ lit "* " ++ u ++ rest)
  = Some (Caps None (Some u)).
Proof.
  intros Hts Hfts Hpre Hu Hfu Hstop. unfold re_match, CHAT_LOG_RE_pat.
  refine (stamp_run ts pre (cp "*" :: cp " " :: u ++ rest) _ _ _
            Hts Hfts Hpre _ _); [done|].
  rewrite exec_alt_r; [|by rewrite exec_cat, exec_chr_ne].
  steps. apply plus_max; [done|done|by unfold stops|]. cbv beta.
  by rewrite text_between_app.
Qed.

Lemma bonk_issuer_match ts pre u rest :
  ts ≠ [] → free_of (lit "]") ts → free_of (lit "<*") pre →
  u ≠ [] → free_of (lit ">") u → word_at (head rest) = false →
  re_match BONKER_RE_pat
    (lit "[" ++ ts ++ lit "]" ++ pre ++ lit "<" ++ u ++ lit "> !bonk" ++ rest)
  = Some (Caps (Some u) None).
Proof.
  intros Hts Hfts Hpre Hu Hfu Hw. unfold re_match, BONKER_RE_pat.
  refine (stamp_run ts pre (cp "<" :: u ++ lit "> !bonk" ++ rest) _ _ _
            Hts Hfts Hpre _ _); [done|].
  cbn [chars lit map list_ascii_of_string app]. steps.
  apply plus_max; [done|done|by unfold stops|]. steps.
  rewrite exec_wordb; [|by cbn [before ahead head]; rewrite Hw].
  by rewrite text_between_app.
Qed.

Lemma bonk_target_match ts pre u at_sign target rest :
  ts ≠ [] → free_of (lit "]") ts → free_of (lit "<*") pre →
  u ≠ [] → free_of (lit ">") u →
  at_sign = [] ∨ at_sign = lit "@" →
  target ≠ [] → forallb is_word target = true → stops WordCls rest →
  re_match BONKED_RE_pat
    (lit "[" ++ ts ++ lit "]" ++ pre ++ lit "<" ++ u ++ lit "> !bonk "
       ++ at_sign ++ target ++ rest)
  = Some (Caps (Some target) None).
Proof.
  intros Hts Hfts Hpre Hu Hfu Hat Ht Hwt Hstop. unfold re_match, BONKED_RE_pat.
  refine (stamp_run ts pre (cp "<" :: u ++ lit "> !bonk " ++ at_sign
                              ++ target ++ rest) _ _ _
            Hts Hfts Hpre _ _); [done|].
  cbn [chars lit map list_ascii_of_string app]. steps.
  apply plus_max; [done|done|by unfold stops|]. steps.
  destruct Hat as [->| ->].
  - change ([] ++ target ++ rest) with (target ++ rest).
    rewrite exec_opt_no.
    + steps. apply plus_max; [done|exact Hwt|done|]. cbv beta.
      by rewrite text_between_app.
    + destruct target as [|c t]; [done|]. cbn [forallb] in Hwt.
      apply andb_true_iff in Hwt as [Hc _]. cbn [ahead head app].
      intros [= Heq]. by rewrite Heq in Hc.
  - cbn [lit map list_ascii_of_string app]. apply exec_opt_yes. steps.
    apply plus_max; [done|exact Hwt|done|]. cbv beta.
    by rewrite text_between_app.
Qed.

Lemma cls_ok_except cs c : cls_ok (Except cs) c = true ↔ c ∉ cs.
Proof.
  simpl. rewrite negb_true_iff. split.
  - intros He Hin. apply list_elem_of_In in Hin.
    assert (existsb (N.eqb c) cs = true); [|congruence].
    apply existsb_exists. exists c. by rewrite N.eqb_refl.
  - intros Hn. destruct (existsb (N.eqb c) cs) eqn:He; [|done].
    apply existsb_exists in He as (x & Hx & ->%N.eqb_eq).
    by apply list_elem_of_In in Hx.
Qed.

(** The first character of a set in a text is found in one place only. *)
Lemma free_split cs t : ∀ t' c c' r r',
  free_of cs t → free_of cs t' → c ∈ cs → c' ∈ cs →
  t ++ c :: r = t' ++ c' :: r' → t = t' ∧ c = c' ∧ r = r'.
Proof.
  unfold free_of.
  induction t as [|x t IH]; intros [|x' t'] c c' r r' Ht Ht' Hc Hc' Heq;
    simpl in *; injection Heq as Hx Heq; subst.
  - done.
  - apply andb_true_iff in Ht' as [Hx _].
    by apply cls_ok_except in Hx.
  - apply andb_true_iff in Ht as [Hx _].
    by apply cls_ok_except in Hx.
  - apply andb_true_iff in Ht as [_ Ht].
    apply andb_true_iff in Ht' as [_ Ht'].
    destruct (IH _ _ _ _ _ Ht Ht' Hc Hc' Heq) as (-> & -> & ->). done.
Qed.

Ltac inv_shape :=
  repeat match goal with
  | H : Matches (Cat _ _) _ _ _ _ |- _ => inversion H; clear H; subst
  | H : Matches (Alt _ _) _ _ _ _ |- _ => inversion H; clear H; subst
  | H : Matches (Grp _ _) _ _ _ _ |- _ => inversion H; clear H; subst
  | H : Matches (Chr _) _ _ _ _ |- _ => inversion H; clear H; subst
  | H : Matches (Plus _) _ _ _ _ |- _ => inversion H; clear H; subst
  | H : Matches (Star _) _ _ _ _ |- _ => inversion H; clear H; subst
  | H : Matches (OptChr _) _ _ _ _ |- _ => inversion H; clear H; subst
  | H : Matches Bol _ _ _ _ |- _ => inversion H; clear H; subst
  | H : Matches WordB _ _ _ _ |- _ => inversion H; clear H; subst
  end.

Lemma bonk_needs_word_end_raw (ts pre u : str) (c : N) (rest : str) :
  free_of [93%N] ts → free_of [60%N; 42%N] pre → free_of [62%N] u →
  is_word c = true →
  re_match BONKER_RE_pat
    (91%N :: ts ++ 93%N :: pre ++ 60%N :: u
       ++ 62%N :: 32%N :: 33%N :: 98%N :: 111%N :: 110%N :: 107%N :: c :: rest)
  = None.
Proof.
  intros Hfts Hpre Hfu Hc.
  destruct (re_match _ _) as [m|] eqn:Hm; [exfalso|done].
  apply re_match_sound in Hm as [p' Hm].
  let r := eval vm_compute in BONKER_RE_pat in change BONKER_RE_pat with r in Hm.
  inv_shape.
  match goal with Hx : ts ++ _ = _ |- _ => rename Hx into Heq end.
  apply free_split with (cs := [93%N]) in Heq as (<- & _ & Heq);
    [|done|done|left|left].
  apply free_split with (cs := [60%N; 42%N]) in Heq as (<- & _ & Heq);
    [|done|done|left|left].
  apply free_split with (cs := [62%N]) in Heq as (<- & _ & Heq);
    [|done|done|left|left].
  simplify_eq.
  match goal with Hx : xorb _ _ = true |- _ => simpl in Hx; by rewrite Hc in Hx end.
Qed.

Lemma scan_line_chat_group reg counts line u :
  u ≠ [] → re_match (pattern_of reg) line = Some (Caps (Some u) None) →
  scan_line reg counts line = Ok (counter_add counts (lower u) 1).
Proof.
  intros Hu Hm. unfold scan_line. rewrite Hm.
  destruct u as [|c t]; [done|]. by destruct reg.
Qed.

(** X1.  A line that has, after its time stamp in brackets and a lead
    without [<] and [*], a name in angle brackets is a chat line of that
    name: the chat pattern hands over the name as [chat_user], and the
    scan adds one to the count of its lowercase form. *)
Theorem chat_message_counts_poster ts pre u rest counts :
  ts ≠ [] → free_of (lit "]") ts → free_of (lit "<*") pre →
  u ≠ [] → free_of (lit ">") u →
  let line := lit "[" ++ ts ++ lit "]" ++ pre ++ lit "<" ++ u ++ lit ">"
                ++ rest in
  re_match CHAT_LOG_RE_pat line = Some (Caps (Some u) None)
  ∧ scan_line CHAT_LOG_RE counts line = Ok (counter_add counts (lower u) 1).
Proof.
  intros Hts Hfts Hpre Hu Hfu line.
  pose proof (chat_message_match ts pre u rest Hts Hfts Hpre Hu Hfu) as Hm.
  split; [done|]. by apply scan_line_chat_group.
Qed.

(** X2.  A line that has, after time stamp and lead, a star, a space and
    a name is an action line: the chat pattern hands over as [action_user]
    the text up to the next space, or up to the end of the line (its line
    end included) when no space follows, and the scan counts it under its
    lowercase form. *)
Theorem chat_action_counts_actor ts pre u rest counts :
  ts ≠ [] → free_of (lit "]") ts → free_of (lit "<*") pre →
  u ≠ [] → free_of (lit " ") u → stops (Except (lit " ")) rest →
  let line := lit "[" ++ ts ++ lit "]" ++ pre ++ lit "* " ++ u ++ rest in
  re_match CHAT_LOG_RE_pat line = Some (Caps None (Some u))
  ∧ scan_line CHAT_LOG_RE counts line = Ok (counter_add counts (lower u) 1).
Proof.
  intros Hts Hfts Hpre Hu Hfu Hstop line.
  pose proof (chat_action_match ts pre u rest Hts Hfts Hpre Hu Hfu Hstop) as Hm.
  split; [done|]. unfold scan_line. fold line in Hm.
  change (pattern_of CHAT_LOG_RE) with CHAT_LOG_RE_pat. rewrite Hm.
  by destruct u.
Qed.

(** X3.  A chat line whose message starts with [!bonk], followed by the
    end of the line or by a character that is not a word character,
    counts as a bonk issued by its poster. *)
Theorem bonk_counts_issuer ts pre u rest counts :
  ts ≠ [] → free_of (lit "]") ts → free_of (lit "<*") pre →
  u ≠ [] → free_of (lit ">") u → word_at (head rest) = false →
  let line := lit "[" ++ ts ++ lit "]" ++ pre ++ lit "<" ++ u
                ++ lit "> !bonk" ++ rest in
  re_match BONKER_RE_pat line = Some (Caps (Some u) None)
  ∧ scan_line BONKER_RE counts line = Ok (counter_add counts (lower u) 1).
Proof.
  intros Hts Hfts Hpre Hu Hfu Hw line.
  pose proof (bonk_issuer_match ts pre u rest Hts Hfts Hpre Hu Hfu Hw) as Hm.
  split; [done|]. by apply scan_line_chat_group.
Qed.

(** X4.  A message that only starts with the letters of the command, such
    as [!bonkers], is no bonk: when a word character follows [!bonk] the
    issuer pattern does not match and the scan leaves the counter as it
    is. *)
Theorem bonk_needs_word_end ts pre u c rest counts :
  free_of (lit "]") ts → free_of (lit "<*") pre → free_of (lit ">") u →
  is_word c = true →
  let line := lit "[" ++ ts ++ lit "]" ++ pre ++ lit "<" ++ u
                ++ lit "> !bonk" ++ c :: rest in
  re_match BONKER_RE_pat line = None
  ∧ scan_line BONKER_RE counts line = Ok counts.
Proof.
  intros Hfts Hpre Hfu Hc line.
  pose proof (bonk_needs_word_end_raw ts pre u c rest Hfts Hpre Hfu Hc) as Hm.
  split; [done|]. by rewrite (scan_line_unmatched BONKER_RE counts line Hm).
Qed.

(** X5.  A chat line whose message is [!bonk], a space, an optional [@]
    and a word counts as a bonk received by that word: the target pattern
    hands over the longest run of word characters, and the scan counts it
    under its lowercase form, whoever posted the line. *)
Theorem bonk_counts_target ts pre u at_sign target rest counts :
  ts ≠ [] → free_of (lit "]") ts → free_of (lit "<*") pre →
  u ≠ [] → free_of (lit ">") u →
  at_sign = [] ∨ at_sign = lit "@" →
  target ≠ [] → forallb is_word target = true → stops WordCls rest →
  let line := lit "[" ++ ts ++ lit "]" ++ pre ++ lit "<" ++ u
                ++ lit "> !bonk " ++ at_sign ++ target ++ rest in
  re_match BONKED_RE_pat line = Some (Caps (Some target) None)
  ∧ scan_line BONKED_RE counts line
    = Ok (counter_add counts (lower target) 1).
Proof.
  intros Hts Hfts Hpre Hu Hfu Hat Ht Hwt Hstop line.
  pose proof (bonk_target_match ts pre u at_sign target rest
                Hts Hfts Hpre Hu Hfu Hat Ht Hwt Hstop) as Hm.
  split; [done|]. by apply scan_line_chat_group.
Qed.
End ExtractionFacts.

(** ** What a scan counts *)


Lemma counter_get_notin (c : Counter) k : k ∉ c.*1 → counter_get c k = 0.
Proof.
  induction c as [|[k0 v] c IH]; simpl; [done|].
  rewrite not_elem_of_cons. intros [Hk Hc]. rewrite decide_False by done. auto.
Qed.

Lemma counter_get_in (c : Counter) k v :
  NoDup c.*1 → (k, v) ∈ c → counter_get c k = v.
Proof.
  induction c as [|[k0 v0] c IH]; simpl; [by intros _ ?%elem_of_nil|].
  rewrite NoDup_cons. intros [Hk0 Hnd] [Heq|Hin]%elem_of_cons.
  - simplify_eq. by rewrite decide_True.
  - rewrite decide_False; [by apply IH|]. intros ->. apply Hk0.
    apply list_elem_of_fmap. by exists (k, v).
Qed.

Lemma counter_get_update (c : Counter) : ∀ (t : Counter) u,
  NoDup c.*1 →
  counter_get (counter_update t c) u = counter_get t u + counter_get c u.
Proof.
  unfold counter_update.
  induction c as [|[k v] c IH]; intros t u Hnd; simpl; [lia|].
  apply NoDup_cons in Hnd as [Hk Hnd]. rewrite IH by done.
  rewrite counter_get_add. case_decide; [|done].
  subst. rewrite (counter_get_notin c u) by done. lia.
Qed.

Section ScanFacts.
Context `{Unicode}.

Lemma scan_line_key reg counts line c :
  scan_line reg counts line = Ok c →
  c = match line_key reg line with
      | Some k => counter_add counts k 1
      | None => counts
      end.
Proof.
  unfold line_key.
  destruct (re_match (pattern_of reg) line) as [m|] eqn:Hm.
  - destruct (scan_line_matched reg counts line m Hm) as (u & Hu & Hcase & ->).
    intros [= <-]. destruct u as [|x u]; [done|].
    by destruct Hcase as [->|[_ ->]].
  - rewrite (scan_line_unmatched _ _ _ Hm). by case_decide; intros [= <-].
Qed.

Lemma scan_lines_counts reg lines : ∀ counts c,
  scan_lines reg counts lines = Ok c →
  NoDup counts.*1 →
  NoDup c.*1
  ∧ ∀ k, counter_get c k
         = counter_get counts k
           + Z.of_nat (length (filter (λ l, line_key reg l = Some k) lines)).
Proof.
  induction lines as [|line lines IH]; intros counts c Hs Hnd; simpl in Hs.
  - injection Hs as <-. split; [done|]. intros k. simpl. lia.
  - destruct (scan_line reg counts line) as [c1|] eqn:H1; [|done]. simpl in Hs.
    apply scan_line_key in H1.
    assert (NoDup c1.*1) as Hnd1.
    { subst c1. destruct (line_key reg line); [by apply counter_add_NoDup|done]. }
    destruct (IH c1 c Hs Hnd1) as [Hc Hget]. split; [done|].
    intros k. rewrite Hget, filter_cons. subst c1.
    destruct (line_key reg line) as [k1|] eqn:Hk1.
    + rewrite counter_get_add. case_decide as Hd.
      * subst. rewrite decide_True by done. simpl length. lia.
      * rewrite decide_False by (by intros [= ->]). lia.
    + rewrite decide_False by done. lia.
Qed.

Lemma scan_lines_keys reg lines : ∀ counts c,
  scan_lines reg counts lines = Ok c →
  ∀ k, k ∈ c.*1 ↔ k ∈ counts.*1 ∨ Exists (λ l, line_key reg l = Some k) lines.
Proof.
  induction lines as [|line lines IH]; intros counts c Hs k; simpl in Hs.
  - injection Hs as <-. rewrite Exists_nil. tauto.
  - destruct (scan_line reg counts line) as [c1|] eqn:H1; [|done]. simpl in Hs.
    apply scan_line_key in H1. rewrite (IH c1 c Hs k), Exists_cons. subst c1.
    destruct (line_key reg line) as [k1|];
      [|split; [intros [?|?]; auto|intros [?|[?|?]]; auto; done]].
    rewrite counter_add_keys. case_decide.
    + split; [intros [?|?]; auto|]. intros [?|[[= Hk]|?]]; subst; auto.
    + rewrite elem_of_app, list_elem_of_singleton. split.
      * intros [[?|Hk]|?]; auto. subst. auto.
      * intros [?|[[= Hk]|?]]; auto.
Qed.

Lemma filter_nonempty_length {A} (P : A → Prop) `{∀ x, Decision (P x)} l :
  (0 < length (filter P l))%nat ↔ Exists P l.
Proof.
  induction l as [|a l IH]; simpl.
  - rewrite Exists_nil. lia.
  - rewrite filter_cons, Exists_cons. case_decide; simpl; [|tauto].
    split; [auto|lia].
Qed.


(** X7.  The counter a scan returns has each key once, and the count it
    holds for a key is the number of lines the pattern matches with that
    key (the lowercase form of the name the match hands over); the keys are
    exactly those of positive count, so no key is held with count 0. *)
Theorem scan_counts_lines_by_key reg lines c :
  scan_lines reg [] lines = Ok c →
  NoDup c.*1
  ∧ ∀ k, counter_get c k
         = Z.of_nat (length (filter (λ l, line_key reg l = Some k) lines))
         ∧ (k ∈ c.*1 ↔ 0 < counter_get c k).
Proof.
  intros Hs.
  destruct (scan_lines_counts reg lines [] c Hs) as [Hnd Hget]; [constructor|].
  split; [done|]. intros k. rewrite Hget.
  change (counter_get [] k) with 0. split; [lia|].
  rewrite (scan_lines_keys reg lines [] c Hs k).
  rewrite <- (filter_nonempty_length (λ l, line_key reg l = Some k) lines).
  split.
  - intros [Hk|Hk]; [by apply elem_of_nil in Hk|lia].
  - intros Hk. right. lia.
Qed.
End ScanFacts.

(** ** Totals over the directory *)

Section TotalsFacts.
Context `{Unicode}.

Lemma scan_file_NoDup w f reg c : scan_file w f reg = Ok c → NoDup c.*1.
Proof.
  unfold scan_file. destruct (os_open w f) as [lines|]; [|done]. simpl.
  intros Hs. by apply (scan_lines_counts reg lines [] c Hs); constructor.
Qed.

Lemma totals_of_count w reg files : ∀ t total u,
  totals_of w reg files t = Ok total →
  counter_get total u
  = counter_get t u + foldr Z.add 0 (map (λ f, file_count w reg f u) files).
Proof.
  induction files as [|f files IH]; intros t total u Ht; simpl in *.
  - injection Ht as <-. lia.
  - unfold file_count at 1.
    destruct (scan_file w (logs_path f) reg) as [c|] eqn:Hc; [|done].
    simpl in Ht. rewrite (IH _ _ u Ht).
    rewrite counter_get_update by by eapply scan_file_NoDup. lia.
Qed.

(** X8.  When the memo table agrees with the files, the total a pass gives
    a user is the sum, over the listed files, of the counts a scan of each
    file gives that user. *)
Theorem totals_sum_files w reg st files total u :
  memo_fresh w st →
  os_listdir w = Some files →
  (_chat_rank_counts w reg st).1 = Ok total →
  counter_get total u = foldr Z.add 0 (map (λ f, file_count w reg f u) files).
Proof.
  intros Hfr Hdir Hok.
  rewrite (proj1 (chat_rank_counts_fresh w reg st Hfr)), Hdir in Hok.
  simpl in Hok. by rewrite (totals_of_count _ _ _ _ _ u Hok).
Qed.

Lemma chat_rank_loop_trace w reg files : ∀ total st,
  ∃ new, events (chat_rank_loop w reg files total st).2 = new ++ events st
    ∧ ∀ k, Scan k ∈ new →
           k.2 = reg ∧ ∃ f, f ∈ files ∧ k.1 = logs_path f
                            ∧ (f = today_log w ∨ memo st !! k = None).
Proof.
  induction files as [|f files IH]; intros total st; simpl.
  - exists []. split; [done|]. by intros k ?%elem_of_nil.
  - rewrite bind_run.
    assert (∀ c st1 new1,
      events st1 = new1 ++ events st → memo st ⊆ memo st1 →
      (∀ k, Scan k ∈ new1 → k = (logs_path f, reg)
            ∧ (f = today_log w ∨ memo st !! k = None)) →
      ∃ new, events (chat_rank_loop w reg files (counter_update total c) st1).2
             = new ++ events st
        ∧ ∀ k, Scan k ∈ new →
               k.2 = reg ∧ ∃ f0, f0 ∈ f :: files ∧ k.1 = logs_path f0
                                 ∧ (f0 = today_log w ∨ memo st !! k = None))
      as Hrest.
    { intros c st1 new1 Hev Hsub Hnew1.
      destruct (IH (counter_update total c) st1) as (new & -> & Hnew).
      exists (new ++ new1). rewrite Hev, app_assoc. split; [done|].
      intros k [Hk|Hk]%elem_of_app.
      - destruct (Hnew k Hk) as (? & f0 & ? & ? & Hcase). split; [done|].
        exists f0. split; [by right|]. split; [done|].
        destruct Hcase as [?|Hnone]; [by left|right].
        destruct (memo st !! k) eqn:Hst; [|done].
        by rewrite (lookup_weaken _ _ _ _ Hst Hsub) in Hnone.
      - destruct (Hnew1 k Hk) as [-> ?]. split; [done|].
        exists f. split; [left|]. done. }
    assert (∀ e st1 new1,
      events st1 = new1 ++ events st →
      (∀ k, Scan k ∈ new1 → k = (logs_path f, reg)
            ∧ (f = today_log w ∨ memo st !! k = None)) →
      ∃ new, events (Raise (A:=Counter) e, st1).2 = new ++ events st
        ∧ ∀ k, Scan k ∈ new →
               k.2 = reg ∧ ∃ f0, f0 ∈ f :: files ∧ k.1 = logs_path f0
                                 ∧ (f0 = today_log w ∨ memo st !! k = None))
      as Hfail.
    { intros e st1 new1 Hev Hnew1. exists new1. split; [done|].
      intros k Hk. destruct (Hnew1 k Hk) as [-> ?]. split; [done|].
      exists f. split; [left|]. done. }
    case_decide as Hf.
    + rewrite memo_run. destruct (memo st !! (logs_path f, reg)) as [c|] eqn:Hk.
      * apply (Hrest c _ [Lookup (logs_path f, reg)]); [done|done|].
        by intros k ?%list_elem_of_singleton.
      * destruct (scan_file w (logs_path f) reg) as [c|e].
        -- apply (Hrest c _ [Store (logs_path f, reg); Scan (logs_path f, reg);
                             Lookup (logs_path f, reg)]);
             [done|by apply insert_subseteq|].
           intros k. rewrite !elem_of_cons, elem_of_nil.
           intros [?|[[= ->]|[?|[]]]]; try done. auto.
        -- apply (Hfail e _ [Scan (logs_path f, reg); Lookup (logs_path f, reg)]);
             [done|].
           intros k. rewrite !elem_of_cons, elem_of_nil.
           intros [[= ->]|[?|[]]]; try done. auto.
    + subst f. rewrite wrapped_run.
      destruct (scan_file w _ reg) as [c|e].
      * apply (Hrest c _ [Scan (logs_path (today_log w), reg)]); [done|done|].
        intros k [= ->]%list_elem_of_singleton. auto.
      * apply (Hfail e _ [Scan (logs_path (today_log w), reg)]); [done|].
        intros k [= ->]%list_elem_of_singleton. auto.
Qed.

(** X9.  A pass run again in the same world returns the same totals, and
    reads no file but today's: every other listed file is answered from
    the memo table. *)
Theorem second_pass_reads_today_only w reg st total :
  (_chat_rank_counts w reg st).1 = Ok total →
  let st' := (_chat_rank_counts w reg st).2 in
  (_chat_rank_counts w reg st').1 = Ok total
  ∧ ∃ new, events (_chat_rank_counts w reg st').2 = new ++ events st'
           ∧ ∀ k, Scan k ∈ new → k = (today_path w, reg).
Proof.
  intros Hok st'. split; [by apply (chat_rank_counts_again w reg st)|].
  subst st'. rewrite !chat_rank_counts_run in *.
  destruct (os_listdir w) as [files|]; [|exists []; split; [done|]];
    [|by intros k ?%elem_of_nil].
  destruct (chat_rank_loop w reg files [] st) as [r st'] eqn:Hrun.
  simpl in *. subst r.
  destruct (chat_rank_loop_trace w reg files [] st') as (new & Hev & Hnew).
  exists new. split; [done|]. intros [p r] Hk.
  destruct (Hnew _ Hk) as (Hr & f & Hf & Hp & Hcase). simpl in *. subst.
  destruct Hcase as [->|Hnone]; [done|].
  destruct (decide (f = today_log w)) as [->|Hne]; [done|].
  destruct (chat_rank_loop_memoized _ _ _ _ _ _ _ Hrun f Hf Hne) as [c Hc].
  congruence.
Qed.

Lemma scan_file_ext w w' f reg :
  os_open w f = os_open w' f → scan_file w f reg = scan_file w' f reg.
Proof. unfold scan_file. by intros ->. Qed.

Lemma chat_rank_loop_stale w w' reg files : ∀ total st,
  today w = today w' →
  os_open w (today_path w) = os_open w' (today_path w) →
  (∀ f, f ∈ files → f ≠ today_log w →
        is_Some (memo st !! (logs_path f, reg))) →
  chat_rank_loop w reg files total st = chat_rank_loop w' reg files total st.
Proof.
  intros total st Htoday Hopen. revert total st.
  assert (today_log w' = today_log w) as Htl by (unfold today_log; by rewrite Htoday).
  induction files as [|f files IH]; intros total st Hmemo; simpl; [done|].
  rewrite !bind_run, Htl. case_decide as Hf.
  - rewrite !memo_run.
    destruct (Hmemo f) as [c Hc]; [left|done|]. rewrite Hc.
    apply IH. intros g Hg Hne. apply Hmemo; [by right|done].
  - subst f. rewrite !wrapped_run. unfold today_path in Hopen.
    rewrite (scan_file_ext w w' _ reg Hopen).
    destruct (scan_file w' _ reg) as [c|]; [|done].
    apply IH. intros g Hg Hne. apply Hmemo; [by right|done].
Qed.

(** X10.  Once every listed file other than today's has its entry in the
    memo table, a pass no longer depends on what those files hold: two
    worlds with the same listing, the same date and the same lines in
    today's file give the same totals and the same state, however the
    other files differ. *)
Theorem memoised_files_not_reread w w' reg st files :
  os_listdir w = Some files → os_listdir w' = Some files →
  today w = today w' →
  os_open w (today_path w) = os_open w' (today_path w) →
  (∀ f, f ∈ files → f ≠ today_log w →
        is_Some (memo st !! (logs_path f, reg))) →
  _chat_rank_counts w reg st = _chat_rank_counts w' reg st.
Proof.
  intros Hd Hd' Ht Ho Hm. rewrite !chat_rank_counts_run, Hd, Hd'.
  by apply chat_rank_loop_stale.
Qed.
End TotalsFacts.

(** ** Ranks and listings *)

Lemma enumerate_lookup {A} (l : list A) : ∀ s i,
  enumerate s l !! i = (λ a, (s + Z.of_nat i, a)) <$> l !! i.
Proof.
  induction l as [|a l IH]; intros s [|i]; simpl; try done.
  - by rewrite Z.add_0_r.
  - rewrite IH. destruct (l !! i); simpl; [|done].
    by replace (s + 1 + Z.of_nat i) with (s + Z.pos (Pos.of_succ_nat i)) by lia.
Qed.

Lemma elem_of_enumerate {A} (l : list A) s r a :
  (r, a) ∈ enumerate s l ↔ ∃ i, l !! i = Some a ∧ r = s + Z.of_nat i.
Proof.
  rewrite list_elem_of_lookup. split.
  - intros [i Hi]. rewrite enumerate_lookup in Hi.
    destruct (l !! i) eqn:Hl; simplify_eq/=. eauto.
  - intros (i & Hi & ->). exists i. by rewrite enumerate_lookup, Hi.
Qed.

(** Cutting the sorted entries cuts the groups: every group of the cut
    list sits at the same place in the groups of the whole list, with the
    same count, and is a leading part of it. *)
Lemma groupby_take l : ∀ n i k g,
  groupby (take n l) !! i = Some (k, g) →
  ∃ g', groupby l !! i = Some (k, g') ∧ g `prefix_of` g'.
Proof.
  induction l as [|p l IH]; intros n i k g; [by destruct n|].
  destruct n as [|n]; [done|]. simpl.
  destruct (groupby (take n l)) as [|[k1 g1] gs] eqn:Ht.
  - destruct i as [|i]; [|done]. intros [= <- <-].
    destruct (groupby l) as [|[k1' g1'] gs'].
    + exists [p]. done.
    + destruct (p.2 =? k1') eqn:He.
      * apply Z.eqb_eq in He as <-. exists (p :: g1'). split; [done|].
        apply prefix_cons, prefix_nil.
      * exists [p]. done.
  - destruct (IH n 0%nat k1 g1) as (g1' & Hl0 & Hpre); [by rewrite Ht|].
    destruct (groupby l) as [|[k1' g1''] gs'] eqn:Hl; [done|].
    injection Hl0 as -> ->.
    assert (∀ j kg, gs !! j = Some kg →
              ∃ g', gs' !! j = Some (kg.1, g') ∧ kg.2 `prefix_of` g') as Htl.
    { intros j [kj gj] Hj. destruct (IH n (S j) kj gj) as (g' & Hg' & ?).
      - by rewrite Ht.
      - eauto. }
    destruct (p.2 =? k1) eqn:He.
    + destruct i as [|i]; simpl.
      * intros [= <- <-]. exists (p :: g1'). split; [done|]. by apply prefix_cons.
      * intros Hi. by destruct (Htl i (k, g) Hi) as (g' & ? & ?); eauto.
    + destruct i as [|[|i]]; simpl.
      * intros [= <- <-]. by exists [p].
      * intros [= <- <-]. eauto.
      * intros Hi. by destruct (Htl i (k, g) Hi) as (g' & ? & ?); eauto.
Qed.

Lemma length_groupby l : (length (groupby l) ≤ length l)%nat.
Proof.
  induction l as [|p l IH]; simpl; [done|].
  destruct (groupby l) as [|[k g] gs]; simpl in *; [lia|].
  destruct (p.2 =? k); simpl; lia.
Qed.

(** X12.  Every group of a top-N listing, for any N, has the rank and the
    count of a group of the full ranking, and lists a leading part of the
    users of that group: cutting never changes a rank or a count. *)
Theorem top_n_ranks_are_global (total : Counter) n rank k g :
  (rank, (k, g)) ∈ _tied_rank (most_common total (Some n)) →
  ∃ g', (rank, (k, g')) ∈ _tied_rank (most_common total None)
        ∧ g `prefix_of` g'.
Proof.
  unfold _tied_rank. simpl. intros (i & Hi & ->)%elem_of_enumerate.
  destruct (groupby_take _ _ _ _ _ Hi) as (g' & Hg' & Hpre).
  exists g'. split; [|done]. apply elem_of_enumerate. eauto.
Qed.

(** X13.  A top-N listing has at most N entries and names at most N
    users, and is empty when N is zero or negative. *)
Theorem top_n_at_most_n (total : Counter) n :
  let listing := map format_group (_tied_rank (most_common total (Some n))) in
  (length listing ≤ Z.to_nat n)%nat
  ∧ (length (members (_tied_rank (most_common total (Some n))))
     ≤ Z.to_nat n)%nat
  ∧ (n ≤ 0 → listing = []).
Proof.
  intros listing. subst listing. rewrite tied_rank_members. simpl.
  rewrite length_map. unfold _tied_rank. rewrite length_enumerate.
  pose proof (length_groupby (take (Z.to_nat n) (sorted_desc total))).
  rewrite length_take in *. split; [lia|]. split; [lia|].
  intros Hn. replace (Z.to_nat n) with 0%nat by lia. done.
Qed.

(** In groups of distinct counts, a count finds its group. *)
Lemma groups_filter (gs : list (Z * list (str * Z))) k g :
  Forall (λ g, g.2 ≠ [] ∧ Forall (λ p : str * Z, p.2 = g.1) g.2) gs →
  StronglySorted (λ g1 g2, g2.1 < g1.1) gs →
  (k, g) ∈ gs →
  filter (λ p : str * Z, p.2 = k) (concat gs.*2) = g.
Proof.
  intros Hu Hs. revert Hu.
  assert (∀ (l : list (str * Z)) k', Forall (λ p, p.2 = k') l →
            filter (λ p : str * Z, p.2 = k) l = if decide (k' = k) then l else [])
    as Hone.
  { intros l k'. induction 1 as [|p l Hp _ IH]; [by case_decide|].
    rewrite filter_cons, IH. repeat case_decide; congruence. }
  induction Hs as [|[k0 g0] gs Hs IH Hlt]; intros Hu Hin;
    [by apply elem_of_nil in Hin|].
  apply Forall_cons in Hu as [[_ Hg0] Hu]. simpl in Hg0, Hlt.
  rewrite fmap_cons. cbn [concat snd].
  rewrite filter_app, (Hone g0 k0 Hg0).
  apply elem_of_cons in Hin as [[= -> ->]|Hin].
  - rewrite decide_True by done.
    assert (filter (λ p : str * Z, p.2 = k0) (concat gs.*2) = []) as ->;
      [|by rewrite app_nil_r].
    clear IH Hs. induction gs as [|[k1 g1] gs IHg]; [done|].
    apply Forall_cons in Hlt as [Hk1 Hlt]. apply Forall_cons in Hu as [[_ Hg1] Hu].
    simpl in Hk1, Hg1. rewrite fmap_cons. cbn [concat snd].
    rewrite filter_app, (Hone g1 k1 Hg1).
    rewrite decide_False by lia. by apply IHg.
  - rewrite decide_False; [by apply IH|].
    intros ->. rewrite Forall_forall in Hlt. specialize (Hlt _ Hin). simpl in Hlt. lia.
Qed.

(** X14.  The group of a count in the ranking holds exactly the entries
    of the counter with that count, in the order the counter holds them
    (the order in which the names were first counted). *)
Theorem group_is_users_of_count (counts : Counter) rank k g :
  (rank, (k, g)) ∈ _tied_rank (most_common counts None) →
  g = filter (λ p : str * Z, p.2 = k) counts.
Proof.
  unfold _tied_rank. simpl. intros (i & Hi & _)%elem_of_enumerate.
  rewrite <- (sorted_desc_stable k counts).
  rewrite <- (groupby_concat (sorted_desc counts)).
  symmetry. apply groups_filter.
  - apply groupby_uniform.
  - apply groupby_keys_desc, sorted_desc_sorted.
  - by eapply list_elem_of_lookup_2.
Qed.

Lemma falling_filter_take (ks : list Z) : ∀ i c,
  StronglySorted (λ a b, b < a) ks → ks !! i = Some c →
  filter (λ v, c < v) ks = take i ks.
Proof.
  induction ks as [|a ks IH]; intros i c Hs Hi; [done|].
  apply StronglySorted_inv in Hs as [Hs Ha].
  destruct i as [|i]; simpl in Hi.
  - injection Hi as ->. rewrite filter_cons, decide_False by lia. simpl.
    clear IH Hs. induction Ha as [|b ks Hb _ IH]; [done|].
    rewrite filter_cons, decide_False by lia. done.
  - assert (c < a).
    { rewrite Forall_forall in Ha. apply Ha. by eapply list_elem_of_lookup_2. }
    rewrite filter_cons, decide_True by done. simpl. f_equal. by apply IH.
Qed.

Lemma falling_NoDup (ks : list Z) :
  StronglySorted (λ a b, b < a) ks → NoDup ks.
Proof.
  induction 1 as [|a ks _ IH Ha]; constructor; [|done].
  intros Hin. rewrite Forall_forall in Ha. specialize (Ha a Hin). lia.
Qed.

Lemma groupby_keys_elem l v : v ∈ (groupby l).*1 ↔ v ∈ l.*2.
Proof.
  induction l as [|p l IH]; [done|]. rewrite fmap_cons, elem_of_cons, <- IH.
  cbn [groupby]. destruct (groupby l) as [|[k g] gs].
  - rewrite !fmap_cons, elem_of_cons. tauto.
  - destruct (Z.eqb_spec p.2 k) as [He|He]; rewrite !fmap_cons, !elem_of_cons;
      cbn [fst]; [|tauto].
    split; [tauto|]. intros [->|?]; auto.
Qed.

Lemma groupby_falling_keys l :
  StronglySorted desc l → StronglySorted (λ a b, b < a) (groupby l).*1.
Proof.
  intros Hl. apply groupby_keys_desc in Hl.
  induction Hl as [|g gs _ IH Hg]; simpl; constructor; [done|].
  by rewrite Forall_fmap.
Qed.


Lemma rank_is_counts_above (total : Counter) rank count users :
  (rank, (count, users)) ∈ _tied_rank (most_common total None) →
  rank = 1 + Z.of_nat (counts_above total count).
Proof.
  unfold _tied_rank. simpl. intros (i & Hi & ->)%elem_of_enumerate.
  f_equal. f_equal. unfold counts_above.
  set (ks := (groupby (sorted_desc total)).*1).
  assert (ks !! i = Some count) as Hk.
  { unfold ks. by rewrite list_lookup_fmap, Hi. }
  pose proof (groupby_falling_keys _ (sorted_desc_sorted total)) as Hfall.
  fold ks in Hfall.
  assert (list_to_set (filter (λ v, count < v) total.*2)
          =@{gset Z} list_to_set (take i ks)) as ->.
  { rewrite <- (falling_filter_take ks i count Hfall Hk).
    apply set_eq. intros v. rewrite !elem_of_list_to_set, !list_elem_of_filter.
    unfold ks. rewrite groupby_keys_elem.
    by rewrite (sorted_desc_perm total). }
  rewrite size_list_to_set.
  - rewrite length_take_le; [done|]. apply lookup_lt_Some in Hk. lia.
  - apply falling_NoDup in Hfall.
    eapply sublist_NoDup; [exact Hfall|apply sublist_take].
Qed.

Section RankAnswer.
Context `{Unicode}.

Lemma user_rank_answer w username reg st total :
  (_chat_rank_counts w reg st).1 = Ok total →
  match (_user_rank_by_line_type w username reg st).1 with
  | Ok None => lower username ∉ total.*1
  | Ok (Some (rank, count)) =>
      lower username ∈ total.*1
      ∧ count = counter_get total (lower username)
      ∧ rank = 1 + Z.of_nat (counts_above total count)
  | Raise _ => False
  end.
Proof.
  intros Hok. pose proof (chat_rank_counts_NoDup w reg st total Hok) as Hnd.
  rewrite user_rank_run.
  destruct (_chat_rank_counts w reg st) as [r st']. simpl in Hok. subst r.
  simpl. set (ranked := _tied_rank (sorted_desc total)).
  assert (members ranked = sorted_desc total) as Hmem by apply tied_rank_members.
  destruct (find_rank (lower username) ranked) as [[rank count]|] eqn:Hfind.
  - destruct (find_rank_some _ _ _ _ Hfind) as (users & Hg & Hu).
    apply list_elem_of_fmap in Hu as ([u v] & Hu & Hin). simpl in Hu. subst u.
    assert ((lower username, v) ∈ total) as Hin'.
    { rewrite <- (sorted_desc_perm total), <- Hmem. unfold members.
      apply list_elem_of_In, in_concat. exists users.
      split; [|by apply list_elem_of_In].
      apply list_elem_of_In. apply list_elem_of_fmap.
      by exists (rank, (count, users)). }
    assert (v = count) as ->.
    { pose proof (tied_rank_uniform (sorted_desc total)) as Hun.
      rewrite Forall_forall in Hun. destruct (Hun _ Hg) as [_ Hall].
      rewrite Forall_forall in Hall. by apply (Hall (lower username, v)). }
    split; [|split].
    + apply list_elem_of_fmap. by exists (lower username, count).
    + symmetry. by apply counter_get_in.
    + by eapply rank_is_counts_above.
  - apply find_rank_none in Hfind. rewrite Hmem in Hfind.
    by rewrite (sorted_desc_perm total) in Hfind.
Qed.
(** X11.  When the totals can be computed, [_user_rank_by_line_type]
    returns [None] exactly for a name whose lowercase form has no entry in
    the totals; otherwise it returns the count the totals hold for it and,
    as rank, one more than the number of distinct counts above that
    count. *)
Theorem rank_of_answer w username reg st total :
  (_chat_rank_counts w reg st).1 = Ok total →
  match (_user_rank_by_line_type w username reg st).1 with
  | Ok None => lower username ∉ total.*1
  | Ok (Some (rank, count)) =>
      lower username ∈ total.*1
      ∧ count = counter_get total (lower username)
      ∧ rank = 1 + Z.of_nat (counts_above total count)
  | Raise _ => False
  end.
Proof. apply user_rank_answer. Qed.
End RankAnswer.

(** ** When the fit fails and what it returns *)

Section FitFacts.
Local Open Scope Q_scope.



Lemma Qsquare_nonneg t : 0 <= t * t.
Proof.
  destruct (Qlt_le_dec t 0) as [Hneg|Hpos].
  - assert (t * t == (- t) * (- t)) as -> by ring.
    apply Qmult_le_0_compat; lra.
  - by apply Qmult_le_0_compat.
Qed.

Lemma spread_cons a xi x : spread a (xi :: x) == (xi - a) * (xi - a) + spread a x.
Proof. unfold spread. cbn [map]. by rewrite Qsum_cons. Qed.

Lemma spread_nonneg a x : 0 <= spread a x.
Proof.
  induction x as [|xi x IH]; [done|]. rewrite spread_cons.
  pose proof (Qsquare_nonneg (xi - a)). lra.
Qed.

Lemma spread_zero a x : spread a x == 0 ↔ Forall (λ xi, xi == a) x.
Proof.
  induction x as [|xi x IH].
  - split; [constructor|reflexivity].
  - rewrite spread_cons, Forall_cons, <- IH.
    pose proof (spread_nonneg a x). split.
    + intros Hs. pose proof (Qsquare_nonneg (xi - a)).
      assert ((xi - a) * (xi - a) == 0) as Hsq by lra.
      split; [|lra]. apply Qmult_integral in Hsq. lra.
    + intros [Hxi Hx]. rewrite Hx, Hxi. ring.
Qed.

Lemma spread_expand a x :
  spread a x
  == Qsum (map (λ xi, xi * xi) x) - (2 # 1) * a * Qsum x + Qlen x * (a * a).
Proof.
  induction x as [|xi x IH].
  - change (0 == 0 - (2 # 1) * a * 0 + 0 * (a * a)). ring.
  - rewrite spread_cons, IH. cbn [map]. rewrite !Qsum_cons, Qlen_cons. ring.
Qed.

Lemma fit_denominator_cons a x :
  fit_denominator (a :: x) == fit_denominator x + spread a x.
Proof.
  rewrite spread_expand. unfold fit_denominator.
  cbn [map]. rewrite !Qsum_cons, Qlen_cons. ring.
Qed.

Lemma fit_denominator_nonneg x : 0 <= fit_denominator x.
Proof.
  induction x as [|a x IH]; [done|].
  rewrite fit_denominator_cons. pose proof (spread_nonneg a x). lra.
Qed.

Lemma fit_denominator_zero x :
  fit_denominator x == 0 ↔ ∃ d, Forall (λ xi, xi == d) x.
Proof.
  split.
  - destruct x as [|a x]; [by exists 0; constructor|].
    rewrite fit_denominator_cons. intros Hz. exists a.
    pose proof (spread_nonneg a x). pose proof (fit_denominator_nonneg x).
    constructor; [reflexivity|]. apply spread_zero. lra.
  - intros [d Hd]. unfold fit_denominator.
    rewrite (Qsum_const x d Hd), (Qsum_sq_const x d Hd). ring.
Qed.

Lemma sum_squares_zero x :
  Qsum (map (λ xi, xi * xi) x) == 0 → fit_denominator x == 0.
Proof.
  intros Hz. apply fit_denominator_zero. exists 0. apply spread_zero.
  unfold spread. rewrite <- Hz. clear Hz.
  induction x as [|xi x IH]; [reflexivity|].
  cbn [map]. rewrite !Qsum_cons, IH. ring.
Qed.

Lemma truediv_nonzero a b : ¬ b == 0 → ∃ q, truediv a b = Ok q.
Proof.
  intros Hb. unfold truediv. destruct (Qeq_bool b 0) eqn:He; [|eauto].
  by apply Qeq_bool_iff in He.
Qed.

Lemma lin_regr_outcome x y :
  match lin_regr x y with
  | Ok _ => ¬ ∃ d, Forall (λ xi, xi == d) x
  | Raise e => e = ZeroDivisionError ∧ ∃ d, Forall (λ xi, xi == d) x
  end.
Proof.
  destruct (Qeq_dec (fit_denominator x) 0) as [Hz|Hnz].
  - apply fit_denominator_zero in Hz as [d Hd].
    rewrite (lin_regr_degenerate x y d Hd). eauto.
  - unfold lin_regr. fold (Qlen x). fold (fit_denominator x).
    destruct (truediv_nonzero
                (Qsum y * Qsum (map (λ xi, xi * xi) x)
                 - Qsum x * Qsum (zip_with Qmult x y)) _ Hnz) as [b ->].
    simpl.
    destruct (truediv_nonzero (Qsum (zip_with Qmult x y) - b * Qsum x)
                (Qsum (map (λ xi, xi * xi) x))) as [a ->].
    { intros Hs. by apply Hnz, sum_squares_zero. }
    simpl. by rewrite <- fit_denominator_zero.
Qed.

(** X15.  The fit fails exactly on the series whose offsets all coincide
    (the empty series among them), and then with [ZeroDivisionError]; on
    every other series it returns a slope and an intercept, whatever the
    counts are. *)
Theorem fit_fails_on_equal_offsets_only x y :
  match lin_regr x y with
  | Ok _ => ¬ ∃ d, Forall (λ xi, xi == d) x
  | Raise e => e = ZeroDivisionError ∧ ∃ d, Forall (λ xi, xi == d) x
  end.
Proof. apply lin_regr_outcome. Qed.

Lemma Qsum_line m c x :
  Qsum (map (λ xi, m * xi + c) x) == m * Qsum x + c * Qlen x.
Proof.
  induction x as [|xi x IH]; [unfold Qlen, Qsum; simpl; ring|].
  cbn [map]. rewrite !Qsum_cons, Qlen_cons, IH. ring.
Qed.

Lemma Qsum_line_xy m c x :
  Qsum (zip_with Qmult x (map (λ xi, m * xi + c) x))
  == m * Qsum (map (λ xi, xi * xi) x) + c * Qsum x.
Proof.
  induction x as [|xi x IH]; [unfold Qsum; simpl; ring|].
  cbn [map zip_with]. rewrite !Qsum_cons, IH. ring.
Qed.

(** X16.  Points that lie on a line are fitted by that line: when the
    counts are [m * x + c] at offsets that do not all coincide, the fit
    returns the slope [m] and the intercept [c]. *)
Theorem fit_recovers_line x m c :
  ¬ (∃ d, Forall (λ xi, xi == d) x) →
  ∃ a b, lin_regr x (map (λ xi, m * xi + c) x) = Ok (a, b)
         ∧ a == m ∧ b == c.
Proof.
  intros Hx.
  pose proof (lin_regr_outcome x (map (λ xi, m * xi + c) x)) as Hf.
  destruct (lin_regr x _) as [[a b]|e] eqn:Hr; [|by destruct Hf as [_ ?]].
  exists a, b. split; [done|].
  apply lin_regr_ok in Hr as [H1 H2]. rewrite Qsum_line_xy in H1.
  rewrite Qsum_line in H2.
  assert (¬ fit_denominator x == 0) as HD by by rewrite fit_denominator_zero.
  assert (¬ Qsum (map (λ xi, xi * xi) x) == 0) as HS
    by (intros Hs; by apply HD, sum_squares_zero).
  unfold fit_denominator in HD.
  set (n := Qlen x) in *. set (s1 := Qsum x) in *.
  set (s2 := Qsum (map (λ xi, xi * xi) x)) in *.
  assert (a * s2 + b * s1 - (m * s2 + c * s1) == 0) as Hu by lra.
  assert (a * s1 + b * n - (m * s1 + c * n) == 0) as Hv by lra.
  assert ((b - c) * (n * s2 - s1 * s1) == 0) as Hb.
  { transitivity ((a * s1 + b * n - (m * s1 + c * n)) * s2
                  - (a * s2 + b * s1 - (m * s2 + c * s1)) * s1); [ring|].
    rewrite Hu, Hv. ring. }
  apply Qmult_integral in Hb as [Hb|Hb]; [|done].
  assert (b == c) as Hbc by lra. split; [|done].
  assert ((a - m) * s2 == 0) as Ha by (rewrite Hbc in H1; lra).
  apply Qmult_integral in Ha as [Ha|Ha]; [lra|done].
Qed.
End FitFacts.

(** ** The start date *)

Lemma str_ltb_irrefl a : str_ltb a a = false.
Proof.
  induction a as [|x a IH]; simpl; [done|].
  by rewrite N.ltb_irrefl, N.eqb_refl, IH.
Qed.

Lemma str_ltb_trans a : ∀ b c,
  str_ltb a b = true → str_ltb b c = true → str_ltb a c = true.
Proof.
  induction a as [|x a IH]; intros [|y b] [|z c]; simpl; try done.
  rewrite !orb_true_iff, !andb_true_iff, !N.ltb_lt, !N.eqb_eq.
  intros [Hxy|[-> Hab]] [Hyz|[-> Hbc]]; eauto with lia.
Qed.

Lemma str_min_least l m :
  str_min l = Some m → m ∈ l ∧ Forall (λ f, str_ltb f m = false) l.
Proof.
  destruct l as [|s l]; [done|]. simpl. intros [= <-].
  assert (∀ acc seen,
    acc ∈ seen → Forall (λ f, str_ltb f acc = false) seen →
    let m := foldl (λ m t, if str_ltb t m then t else m) acc l in
    m ∈ seen ++ l ∧ Forall (λ f, str_ltb f m = false) (seen ++ l)) as Hgen.
  { induction l as [|t l IH]; intros acc seen Hin Hall; simpl.
    - by rewrite app_nil_r.
    - rewrite (cons_middle t seen l), !app_assoc.
      destruct (str_ltb t acc) eqn:Ht; apply IH.
      + apply elem_of_app. right. left.
      + apply Forall_app. split; [|by constructor; [apply str_ltb_irrefl|]].
        eapply Forall_impl; [done|]. simpl. intros f Hf.
        destruct (str_ltb f t) eqn:Hft; [|done].
        by rewrite (str_ltb_trans _ _ _ Hft Ht) in Hf.
      + apply elem_of_app. by left.
      + apply Forall_app. split; [done|]. by constructor. }
  apply (Hgen s [s]); [left|]. constructor; [apply str_ltb_irrefl|constructor].
Qed.

Section StartDateFacts.
Context `{Unicode}.

Lemma log_start_date_hit w st s :
  start_memo st = Some s → _log_start_date w st = (Ok s, st).
Proof. unfold _log_start_date. by intros ->. Qed.

Lemma log_start_date_ok w st s :
  (_log_start_date w st).1 = Ok s →
  start_memo (_log_start_date w st).2 = Some s.
Proof.
  unfold _log_start_date. destruct (start_memo st) eqn:Hs.
  - simpl. by intros [= <-].
  - destruct (_ ≫= _); simpl; [by intros [= <-]|done].
Qed.

Lemma chat_rank_loop_start w reg files : ∀ total st,
  start_memo (chat_rank_loop w reg files total st).2 = start_memo st.
Proof.
  induction files as [|f files IH]; intros total st; simpl; [done|].
  rewrite bind_run. case_decide.
  - rewrite memo_run. destruct (memo st !! _); [by rewrite IH|].
    destruct (scan_file _ _ _); [by rewrite IH|done].
  - rewrite wrapped_run. destruct (scan_file _ _ _); [by rewrite IH|done].
Qed.

Lemma chatplot_loop_start w user d files : ∀ x y st,
  start_memo (chatplot_loop w user d files x y st).2 = start_memo st.
Proof.
  induction files as [|f files IH]; intros x y st; simpl; [done|].
  case_decide; [apply IH|]. rewrite bind_run. unfold lift at 1.
  destruct (fromisoformat _); [|done]. rewrite bind_run, memo_run.
  destruct (memo st !! _).
  - destruct (_ || _); by rewrite IH.
  - destruct (scan_file _ _ _); [|done]. destruct (_ || _); by rewrite IH.
Qed.

Lemma step_start st c s : start_memo st = Some s → start_memo (step st c) = Some s.
Proof.
  intros Hs. unfold step. destruct c.2 as [reg|user_arg].
  - rewrite chat_rank_counts_run. destruct (os_listdir c.1); [|done].
    by rewrite chat_rank_loop_start.
  - rewrite cmd_chatplot_run, (log_start_date_hit _ _ _ Hs).
    destruct (fromisoformat s); [|done]. destruct (os_listdir c.1); [|done].
    pose proof (chatplot_loop_start c.1 (lower user_arg) a (sorted l) [] [] st) as Hl.
    destruct (chatplot_loop _ _ _ _ _ _ _) as [[xy|e] st1]; simpl in *; congruence.
Qed.

(** X17.  The start date is fixed by its first successful computation:
    whatever commands run afterwards, in whatever state of the directory,
    [_log_start_date] returns the same date and changes nothing. *)
Theorem log_start_date_is_fixed w st s cmds w' :
  (_log_start_date w st).1 = Ok s →
  _log_start_date w' (foldl step (_log_start_date w st).2 cmds)
  = (Ok s, foldl step (_log_start_date w st).2 cmds).
Proof.
  intros Hok. apply log_start_date_hit.
  apply log_start_date_ok in Hok. revert Hok.
  generalize (_log_start_date w st).2. intros st0.
  induction cmds as [|c cmds IH] using rev_ind; [done|].
  intros Hs. rewrite foldl_app. simpl. by apply step_start, IH.
Qed.

Lemma log_start_date_fresh w st :
  start_memo st = None →
  match _log_start_date w st with
  | (Ok s, st') =>
      ∃ files m, os_listdir w = Some files ∧ m ∈ files
                 ∧ Forall (λ f, str_ltb f m = false) files
                 ∧ s = before_dot m ∧ start_memo st' = Some s
  | (Raise e, st') =>
      st' = st ∧ (e = OSError ∧ os_listdir w = None
                  ∨ e = ValueError ∧ os_listdir w = Some [])
  end.
Proof.
  intros Hs. unfold _log_start_date. rewrite Hs.
  destruct (os_listdir w) as [files|]; simpl; [|auto].
  destruct (str_min files) as [m|] eqn:Hm; simpl.
  - apply str_min_least in Hm as [Hin Hall]. by exists files, m.
  - split; [done|]. right. by destruct files.
Qed.
(** X18.  The first computation of the start date returns the part before
    the first dot of the least file name of the directory, a name that no
    listed name precedes, and stores it.  It fails with [OSError] when the
    directory cannot be listed and with [ValueError] when it is empty, and
    a failure stores nothing. *)
Theorem log_start_date_first w st :
  start_memo st = None →
  match _log_start_date w st with
  | (Ok s, st') =>
      ∃ files m, os_listdir w = Some files ∧ m ∈ files
                 ∧ Forall (λ f, str_ltb f m = false) files
                 ∧ s = before_dot m ∧ start_memo st' = Some s
  | (Raise e, st') =>
      st' = st ∧ (e = OSError ∧ os_listdir w = None
                  ∨ e = ValueError ∧ os_listdir w = Some [])
  end.
Proof. apply log_start_date_fresh. Qed.
End StartDateFacts.

(** ** The series and the chart *)



Lemma skip_leading_zeros_head days :
  match skip_leading_zeros days with
  | [] => Forall (λ d, d.2 = 0) days
  | d :: _ => d.2 ≠ 0
  end.
Proof.
  induction days as [|[x y] days IH]; simpl; [done|].
  destruct (Z.eqb_spec y 0) as [->|Hy]; [|done].
  destruct (skip_leading_zeros days); [by constructor|done].
Qed.

Lemma skip_leading_zeros_length days :
  (length (skip_leading_zeros days) ≤ length days)%nat.
Proof.
  induction days as [|[x y] days IH]; simpl; [done|].
  destruct (y =? 0); simpl; lia.
Qed.

Section SeriesFacts.
Context `{Unicode}.

Lemma chatplot_series w user min_date files st x y st' :
  chatplot_loop w user min_date files [] [] st = (Ok (x, y), st') →
  let days := map (λ f, (day_offset min_date f, count_in st' user f))
                  (filter (λ f, f ≠ today_log w) files) in
  x = (skip_leading_zeros days).*1 ∧ y = (skip_leading_zeros days).*2.
Proof.
  intros Hrun. exact (chatplot_loop_series _ _ _ _ _ _ _ _ _ _ Hrun).
Qed.

(** X19.  The series the loop of [cmd_chatplot] builds has as many counts
    as offsets and at most one pair for each file other than today's; it
    starts with a count that is not zero, and it is empty only when the
    user has count zero in every such file. *)
Theorem series_starts_with_a_count w user min_date files st x y :
  (chatplot_loop w user min_date files [] [] st).1 = Ok (x, y) →
  length x = length y
  ∧ (length x ≤ length (filter (λ f, f ≠ today_log w) files))%nat
  ∧ match y with
    | [] => Forall (λ f, f ≠ today_log w →
                         count_in (chatplot_loop w user min_date files [] []
                                     st).2 user f = 0) files
    | y0 :: _ => y0 ≠ 0
    end.
Proof.
  destruct (chatplot_loop w user min_date files [] [] st) as [r st'] eqn:Hrun.
  simpl. intros ->. apply chatplot_series in Hrun as [-> ->].
  set (days := map _ _).
  split; [by rewrite !length_fmap|]. split.
  { rewrite length_fmap. etrans; [apply skip_leading_zeros_length|].
    unfold days. by rewrite length_map. }
  pose proof (skip_leading_zeros_head days) as Hh.
  destruct (skip_leading_zeros days) as [|[x0 y0] rest]; simpl; [|done].
  unfold days in Hh. rewrite Forall_forall in Hh.
  apply Forall_forall. intros f Hf Hne.
  apply (Hh (day_offset min_date f, count_in st' user f)).
  apply list_elem_of_In, in_map_iff. exists f. split; [done|].
  apply list_elem_of_In, list_elem_of_filter. done.
Qed.

Lemma series_starts_with_a_count_aux w user min_date files st x y :
  (chatplot_loop w user min_date files [] [] st).1 = Ok (x, y) →
  length x = length y ∧ match y with [] => True | y0 :: _ => y0 ≠ 0 end.
Proof.
  destruct (chatplot_loop w user min_date files [] [] st) as [r st'] eqn:Hrun.
  simpl. intros ->. apply chatplot_series in Hrun as [-> ->].
  split; [by rewrite !length_fmap|].
  match goal with |- context [skip_leading_zeros ?d] =>
    pose proof (skip_leading_zeros_head d) as Hh;
    destruct (skip_leading_zeros d) as [|[x0 y0] rest] end; done.
Qed.
End SeriesFacts.

Lemma chart_of_fit user x y x' y' m c :
  chatplot_fit user x y = Ok (Plot x' y' m c) →
  length x = length y → head y ≠ Some 0 →
  x' = x ∧ y' = y
  ∧ head (chart_points x y) = head (zip x y)
  ∧ Forall (λ p, p.2 ≠ 0) (chart_points x y)
  ∧ ∃ x0 xn, head x = Some x0 ∧ last x = Some xn
             ∧ trend_line x m c
               = Ok ((x0, m * inject_Z x0 + c)%Q, (xn, m * inject_Z xn + c)%Q).
Proof.
  unfold chatplot_fit. destruct (length x <? 2)%nat eqn:Hlen; [done|].
  apply Nat.ltb_ge in Hlen.
  destruct (lin_regr _ _) as [[m' c']|]; [|done]. simpl.
  intros [= <- <- <- <-] Hxy Hy. split; [done|]. split; [done|].
  split; [|split].
  - destruct x as [|x0 x], y as [|y0 y]; try done. unfold chart_points.
    simpl. rewrite filter_cons, decide_True; [done|]. simpl. by intros ->.
  - unfold chart_points. apply Forall_forall. by intros p [? _]%list_elem_of_filter.
  - destruct x as [|x0 x]; [simpl in Hlen; lia|].
    destruct (last (x0 :: x)) as [xn|] eqn:Hl.
    + exists x0, xn. unfold trend_line. simpl head. rewrite Hl. done.
    + by apply last_None in Hl.
Qed.

Section ChartFacts.
Context `{Unicode}.

(** X20.  Whenever [cmd_chatplot] gets to the chart, the chart is drawn
    from the series of the loop; its scatter data holds the days of
    non-zero count and starts with the first day of the series, so it is
    never empty, and the two ends of the trend line are taken at the first
    and the last offset without an [IndexError]. *)
Theorem chart_starts_at_first_day w user min_date files st x y x' y' m c :
  (chatplot_loop w user min_date files [] [] st).1 = Ok (x, y) →
  chatplot_fit user x y = Ok (Plot x' y' m c) →
  x' = x ∧ y' = y
  ∧ head (chart_points x y) = head (zip x y)
  ∧ chart_points x y ≠ []
  ∧ Forall (λ p, p.2 ≠ 0) (chart_points x y)
  ∧ ∃ x0 xn, head x = Some x0 ∧ last x = Some xn
             ∧ trend_line x m c
               = Ok ((x0, m * inject_Z x0 + c)%Q, (xn, m * inject_Z xn + c)%Q).
Proof.
  intros Hloop Hfit.
  destruct (series_starts_with_a_count_aux w user min_date files st x y Hloop)
    as (Hlen & Hy).
  assert (head y ≠ Some 0) as Hy0.
  { destruct y as [|y0 y]; [done|]. simpl. by intros [= ->]. }
  destruct (chart_of_fit user x y x' y' m c Hfit Hlen Hy0)
    as (-> & -> & Hhead & Hall & Hends).
  repeat split; try done.
  intros Hnil. rewrite Hnil in Hhead. simpl in Hhead.
  unfold chatplot_fit in Hfit.
  destruct x as [|x0 x], y as [|y0 y]; try done.
Qed.
End ChartFacts.

(** ** The commands *)

Section CommandFacts.
Context `{Unicode}.
Variable esc : str → str.





Lemma chat_rank_loop_nil w reg files : ∀ total st t,
  (chat_rank_loop w reg files total st).1 = Ok t → t ≠ [] →
  total ≠ [] ∨ files ≠ [].
Proof. destruct files; intros total st t; simpl; [intros [= ->]; auto|auto]. Qed.


Lemma log_start_date_nonempty w st files :
  os_listdir w = Some files → files ≠ [] →
  ∃ s, (_log_start_date w st).1 = Ok s.
Proof.
  intros Hd Hne. unfold _log_start_date. destruct (start_memo st); [eauto|].
  rewrite Hd. simpl. destruct files as [|f files]; [done|]. simpl. eauto.
Qed.

(** X21.  When the chat totals can be computed, [cmd_chatrank] always
    answers: with the text that the user was not found when the lowercase
    name has no chat line, without a look at the start date (so also in an
    empty directory), and else with the rank, the count and the start
    date. *)
Theorem cmd_chatrank_answers w user st total :
  (_chat_rank_counts w CHAT_LOG_RE st).1 = Ok total →
  ∃ msg, (cmd_chatrank esc w user st).1 = Ok msg
    ∧ if decide (lower user ∈ total.*1)
      then ∃ start,
             msg = esc user ++ lit " is ranked #"
                     ++ str_of_Z (1 + Z.of_nat (counts_above total
                                    (counter_get total (lower user))))
                     ++ lit " with "
                     ++ str_of_Z (counter_get total (lower user))
                     ++ lit " messages (since " ++ start ++ lit ")"
      else msg = lit "user not found " ++ esc user.
Proof.
  intros Hok. pose proof (user_rank_answer w user CHAT_LOG_RE st total Hok) as Hr.
  unfold cmd_chatrank. rewrite bind_run.
  assert (total ≠ [] → ∃ files, os_listdir w = Some files ∧ files ≠ []) as Hdir.
  { intros Hne. rewrite chat_rank_counts_run in Hok.
    destruct (os_listdir w) as [files|]; [|done]. exists files. split; [done|].
    by destruct (chat_rank_loop_nil _ _ _ _ _ _ Hok Hne). }
  rewrite user_rank_run in *.
  destruct (_chat_rank_counts w CHAT_LOG_RE st) as [r st'].
  simpl in Hok. subst r. simpl in *.
  destruct (find_rank _ _) as [[rank count]|].
  - destruct Hr as (Hin & -> & ->).
    destruct Hdir as (files & Hd & Hne); [by intros ->; apply elem_of_nil in Hin|].
    destruct (log_start_date_nonempty w st' files Hd Hne) as [s Hs].
    rewrite bind_run. destruct (_log_start_date w st') as [r st'']. simpl in Hs.
    subst r. simpl. eexists. split; [done|]. rewrite decide_True by done. eauto.
  - simpl. eexists. split; [done|]. by rewrite decide_False.
Qed.

End CommandFacts.

(** ** The further properties on the sample logs *)

Section FurtherSamples.
#[local] Existing Instance ascii_text.

Ltac by_decide :=
  match goal with |- ?P => apply (bool_decide_unpack P) end;
  vm_compute; exact I.

Lemma chat_message_counts_poster_witness :
  re_match CHAT_LOG_RE_pat (lit "[12:00] <Foo> hi" ++ nl)
  = Some (Caps (Some (lit "Foo")) None)
  ∧ scan_line CHAT_LOG_RE [(lit "foo", 2)] (lit "[12:00] <Foo> hi" ++ nl)
    = Ok [(lit "foo", 3)].
Proof.
  exact (chat_message_counts_poster (lit "12:00") (lit " ") (lit "Foo")
           (lit " hi" ++ nl) [(lit "foo", 2)]
           ltac:(discriminate) eq_refl eq_refl ltac:(discriminate) eq_refl).
Defined.

Lemma chat_action_counts_actor_witness :
  re_match CHAT_LOG_RE_pat (lit "[12:01] * Foo waves" ++ nl)
  = Some (Caps None (Some (lit "Foo")))
  ∧ scan_line CHAT_LOG_RE [(lit "foo", 2)] (lit "[12:01] * Foo waves" ++ nl)
    = Ok [(lit "foo", 3)].
Proof.
  exact (chat_action_counts_actor (lit "12:01") (lit " ") (lit "Foo")
           (lit " waves" ++ nl) [(lit "foo", 2)]
           ltac:(discriminate) eq_refl eq_refl ltac:(discriminate) eq_refl
           eq_refl).
Defined.

Lemma bonk_counts_issuer_witness :
  re_match BONKER_RE_pat (lit "[12:02] <Foo> !bonk @bar" ++ nl)
  = Some (Caps (Some (lit "Foo")) None)
  ∧ scan_line BONKER_RE [] (lit "[12:02] <Foo> !bonk @bar" ++ nl)
    = Ok [(lit "foo", 1)].
Proof.
  exact (bonk_counts_issuer (lit "12:02") (lit " ") (lit "Foo")
           (lit " @bar" ++ nl) []
           ltac:(discriminate) eq_refl eq_refl ltac:(discriminate) eq_refl
           eq_refl).
Defined.

Lemma bonk_needs_word_end_witness :
  re_match BONKER_RE_pat (lit "[12:02] <foo> !bonkers" ++ nl) = None
  ∧ scan_line BONKER_RE [(lit "foo", 1)] (lit "[12:02] <foo> !bonkers" ++ nl)
    = Ok [(lit "foo", 1)].
Proof.
  exact (bonk_needs_word_end (lit "12:02") (lit " ") (lit "foo") (cp "e")
           (lit "rs" ++ nl) [(lit "foo", 1)]
           eq_refl eq_refl eq_refl eq_refl).
Defined.

Lemma bonk_counts_target_witness :
  re_match BONKED_RE_pat (lit "[12:02] <foo> !bonk @Bar" ++ nl)
  = Some (Caps (Some (lit "Bar")) None)
  ∧ scan_line BONKED_RE [] (lit "[12:02] <foo> !bonk @Bar" ++ nl)
    = Ok [(lit "bar", 1)].
Proof.
  exact (bonk_counts_target (lit "12:02") (lit " ") (lit "foo") (lit "@")
           (lit "Bar") nl []
           ltac:(discriminate) eq_refl eq_refl ltac:(discriminate) eq_refl
           (or_intror eq_refl) ltac:(discriminate) eq_refl eq_refl).
Defined.

Lemma scan_counts_lines_by_key_witness :
  let lines := [lit "[12:00] <foo> hi" ++ nl; lit "[12:01] <bar> hi" ++ nl;
                lit "[12:02] * Foo waves" ++ nl] in
  let c := [(lit "foo", 2); (lit "bar", 1)] in
  scan_lines CHAT_LOG_RE [] lines = Ok c
  ∧ NoDup c.*1
  ∧ ∀ k, counter_get c k
         = Z.of_nat (length (filter (λ l, line_key CHAT_LOG_RE l = Some k)
                               lines))
         ∧ (k ∈ c.*1 ↔ 0 < counter_get c k).
Proof.
  intros lines c.
  assert (scan_lines CHAT_LOG_RE [] lines = Ok c) as H1 by reflexivity.
  split; [exact H1|].
  exact (scan_counts_lines_by_key CHAT_LOG_RE lines c H1).
Defined.

Lemma totals_sum_files_witness :
  let total := [(lit "bar", 3); (lit "foo", 5)] in
  (_chat_rank_counts plot_world CHAT_LOG_RE init).1 = Ok total
  ∧ counter_get total (lit "foo")
    = foldr Z.add 0
        (map (λ f, file_count plot_world CHAT_LOG_RE f (lit "foo"))
             (default [] (os_listdir plot_world))).
Proof.
  intros total.
  assert ((_chat_rank_counts plot_world CHAT_LOG_RE init).1 = Ok total)
    as H1 by reflexivity.
  split; [exact H1|].
  exact (totals_sum_files plot_world CHAT_LOG_RE init _ total (lit "foo")
           (memo_fresh_init plot_world) eq_refl H1).
Defined.

Lemma second_pass_reads_today_only_witness :
  let total := [(lit "bar", 3); (lit "foo", 5)] in
  let st' := (_chat_rank_counts plot_world CHAT_LOG_RE init).2 in
  (_chat_rank_counts plot_world CHAT_LOG_RE init).1 = Ok total
  ∧ (_chat_rank_counts plot_world CHAT_LOG_RE st').1 = Ok total
  ∧ ∃ new, events (_chat_rank_counts plot_world CHAT_LOG_RE st').2
           = new ++ events st'
           ∧ ∀ k, Scan k ∈ new → k = (today_path plot_world, CHAT_LOG_RE).
Proof.
  intros total st'.
  assert ((_chat_rank_counts plot_world CHAT_LOG_RE init).1 = Ok total)
    as H1 by reflexivity.
  split; [exact H1|].
  exact (second_pass_reads_today_only plot_world CHAT_LOG_RE init total H1).
Defined.

Lemma memoised_files_not_reread_witness :
  let emptied :=
    dir_world
      [(lit "2021-03-03.log", []); (lit "2021-03-01.log", []);
       (lit "2021-03-05.log", [lit "[12:00] <Foo> hi" ++ nl]);
       (lit "2021-03-02.log", []); (lit "2021-03-04.log", [])]
      (lit "2021-03-05") in
  let st := (_chat_rank_counts plot_world CHAT_LOG_RE init).2 in
  (_chat_rank_counts emptied CHAT_LOG_RE init).1 = Ok [(lit "foo", 1)]
  ∧ (_chat_rank_counts plot_world CHAT_LOG_RE st).1
    = Ok [(lit "bar", 3); (lit "foo", 5)]
  ∧ _chat_rank_counts plot_world CHAT_LOG_RE st
    = _chat_rank_counts emptied CHAT_LOG_RE st.
Proof.
  intros emptied st.
  split; [reflexivity|]. split; [reflexivity|].
  assert (∀ f, f ∈ default [] (os_listdir plot_world) →
               f ≠ today_log plot_world →
               is_Some (memo st !! (logs_path f, CHAT_LOG_RE))) as Hmemo.
  { apply (proj1 (Forall_forall
             (λ f, f ≠ today_log plot_world →
                   is_Some (memo st !! (logs_path f, CHAT_LOG_RE))) _)).
    by_decide. }
  exact (memoised_files_not_reread plot_world emptied CHAT_LOG_RE st _
           eq_refl eq_refl eq_refl eq_refl Hmemo).
Defined.

Lemma rank_of_answer_witness :
  let total := [(lit "a", 5); (lit "b", 5); (lit "c", 5); (lit "d", 3)] in
  (_chat_rank_counts ties_world CHAT_LOG_RE init).1 = Ok total
  ∧ (_user_rank_by_line_type ties_world (lit "D") CHAT_LOG_RE init).1
    = Ok (Some (2, 3))
  ∧ lower (lit "D") ∈ total.*1
  ∧ 3 = counter_get total (lower (lit "D"))
  ∧ 2 = 1 + Z.of_nat (counts_above total 3).
Proof.
  intros total.
  assert ((_chat_rank_counts ties_world CHAT_LOG_RE init).1 = Ok total)
    as H1 by reflexivity.
  split; [exact H1|]. split; [reflexivity|].
  exact (rank_of_answer ties_world (lit "D") CHAT_LOG_RE init total H1).
Defined.

Lemma top_n_ranks_are_global_witness :
  let total := [(lit "a", 5); (lit "b", 5); (lit "c", 5); (lit "d", 3)] in
  (1, (5, [(lit "a", 5); (lit "b", 5)]))
    ∈ _tied_rank (most_common total (Some 2))
  ∧ ∃ g', (1, (5, g')) ∈ _tied_rank (most_common total None)
          ∧ [(lit "a", 5); (lit "b", 5)] `prefix_of` g'.
Proof.
  intros total.
  assert ((1, (5, [(lit "a", 5); (lit "b", 5)]))
            ∈ _tied_rank (most_common total (Some 2))) as H1 by by_decide.
  split; [exact H1|].
  exact (top_n_ranks_are_global total 2 1 5 _ H1).
Defined.

Lemma top_n_at_most_n_witness :
  0 ≤ 0
  ∧ map format_group (_tied_rank (most_common abc_counts (Some 0))) = [].
Proof.
  assert (0 ≤ 0) as H0 by lia.
  split; [exact H0|].
  exact (proj2 (proj2 (top_n_at_most_n abc_counts 0)) H0).
Defined.

Lemma group_is_users_of_count_witness :
  let total := [(lit "a", 5); (lit "d", 3); (lit "b", 5); (lit "c", 5)] in
  (1, (5, [(lit "a", 5); (lit "b", 5); (lit "c", 5)]))
    ∈ _tied_rank (most_common total None)
  ∧ [(lit "a", 5); (lit "b", 5); (lit "c", 5)]
    = filter (λ p : str * Z, p.2 = 5) total.
Proof.
  intros total.
  assert ((1, (5, [(lit "a", 5); (lit "b", 5); (lit "c", 5)]))
            ∈ _tied_rank (most_common total None)) as H1 by by_decide.
  split; [exact H1|].
  exact (group_is_users_of_count total 1 5 _ H1).
Defined.

Lemma fit_recovers_line_witness :
  (¬ ∃ d, Forall (λ xi, xi == d) [0; 1; 3])%Q
  ∧ ∃ a b, lin_regr [0; 1; 3]%Q (map (λ xi, 2 * xi + 1) [0; 1; 3])%Q
           = Ok (a, b)
           ∧ (a == 2)%Q ∧ (b == 1)%Q.
Proof.
  assert (¬ ∃ d, Forall (λ xi, xi == d) [0; 1; 3])%Q as Hx.
  { intros [d Hd].
    apply Forall_cons in Hd as [H0 Hd]. apply Forall_cons in Hd as [H1 _].
    rewrite <- H0 in H1. discriminate H1. }
  split; [exact Hx|].
  exact (fit_recovers_line [0; 1; 3]%Q 2 1 Hx).
Defined.

Lemma log_start_date_is_fixed_witness :
  let unreadable := World None (λ _, None) (lit "2021-04-01") in
  let later :=
    foldl step (_log_start_date plot_world init).2
      [(same_day_world, Aggregate CHAT_LOG_RE);
       (ties_world, ChatPlot (lit "a"))] in
  (_log_start_date plot_world init).1 = Ok (lit "2021-03-01")
  ∧ _log_start_date unreadable later = (Ok (lit "2021-03-01"), later).
Proof.
  intros unreadable later.
  assert ((_log_start_date plot_world init).1 = Ok (lit "2021-03-01"))
    as H1 by reflexivity.
  split; [exact H1|].
  exact (log_start_date_is_fixed plot_world init _ _ unreadable H1).
Defined.

Lemma log_start_date_first_witness :
  start_memo init = None
  ∧ ∃ files m,
      os_listdir plot_world = Some files ∧ m ∈ files
      ∧ Forall (λ f, str_ltb f m = false) files
      ∧ lit "2021-03-01" = before_dot m
      ∧ start_memo (_log_start_date plot_world init).2
        = Some (lit "2021-03-01").
Proof.
  assert (start_memo init = None) as H1 by reflexivity.
  split; [exact H1|].
  exact (log_start_date_first plot_world init H1).
Defined.

Lemma series_starts_with_a_count_witness :
  let files := [lit "2021-03-01.log"; lit "2021-03-02.log";
                lit "2021-03-03.log"; lit "2021-03-04.log";
                lit "2021-03-05.log"] in
  (chatplot_loop plot_world (lit "foo") (Date 2021 3 1) files [] [] init).1
  = Ok ([1; 2; 3], [2; 0; 2])
  ∧ length [1; 2; 3] = length [2; 0; 2]
  ∧ (length [1; 2; 3]
     ≤ length (filter (λ f, f ≠ today_log plot_world) files))%nat
  ∧ 2 ≠ 0.
Proof.
  intros files.
  assert ((chatplot_loop plot_world (lit "foo") (Date 2021 3 1) files [] []
             init).1 = Ok ([1; 2; 3], [2; 0; 2])) as H1 by reflexivity.
  split; [exact H1|].
  exact (series_starts_with_a_count plot_world (lit "foo") (Date 2021 3 1)
           files init _ _ H1).
Defined.

Lemma chart_starts_at_first_day_witness :
  let files := [lit "2021-03-01.log"; lit "2021-03-02.log";
                lit "2021-03-03.log"; lit "2021-03-04.log";
                lit "2021-03-05.log"] in
  let x := [1; 2; 3] in
  let y := [2; 0; 2] in
  (chatplot_loop plot_world (lit "foo") (Date 2021 3 1) files [] [] init).1
  = Ok (x, y)
  ∧ chatplot_fit (lit "foo") x y = Ok (Plot x y 0 (4 # 3))
  ∧ chart_points x y = [(1, 2); (3, 2)]
  ∧ x = x ∧ y = y
  ∧ head (chart_points x y) = head (zip x y)
  ∧ chart_points x y ≠ []
  ∧ Forall (λ p, p.2 ≠ 0) (chart_points x y)
  ∧ ∃ x0 xn, head x = Some x0 ∧ last x = Some xn
             ∧ trend_line x 0 (4 # 3)
               = Ok ((x0, 0 * inject_Z x0 + (4 # 3))%Q,
                     (xn, 0 * inject_Z xn + (4 # 3))%Q).
Proof.
  intros files x y.
  assert ((chatplot_loop plot_world (lit "foo") (Date 2021 3 1) files [] []
             init).1 = Ok (x, y)) as H1 by reflexivity.
  assert (chatplot_fit (lit "foo") x y = Ok (Plot x y 0 (4 # 3))) as H2
    by reflexivity.
  split; [exact H1|]. split; [exact H2|]. split; [reflexivity|].
  exact (chart_starts_at_first_day plot_world (lit "foo") (Date 2021 3 1)
           files init x y x y 0 (4 # 3) H1 H2).
Defined.

Lemma cmd_chatrank_answers_witness :
  let total := [(lit "bar", 3); (lit "foo", 5)] in
  (_chat_rank_counts plot_world CHAT_LOG_RE init).1 = Ok total
  ∧ (cmd_chatrank (λ s, s) plot_world (lit "Foo") init).1
    = Ok (lit "Foo is ranked #1 with 5 messages (since 2021-03-01)")
  ∧ (cmd_chatrank (λ s, s) plot_world (lit "baz") init).1
    = Ok (lit "user not found baz")
  ∧ ∃ msg, (cmd_chatrank (λ s, s) plot_world (lit "Foo") init).1 = Ok msg
      ∧ ∃ start,
          msg = lit "Foo" ++ lit " is ranked #"
                  ++ str_of_Z (1 + Z.of_nat (counts_above total
                                 (counter_get total (lower (lit "Foo")))))
                  ++ lit " with "
                  ++ str_of_Z (counter_get total (lower (lit "Foo")))
                  ++ lit " messages (since " ++ start ++ lit ")".
Proof.
  intros total.
  assert ((_chat_rank_counts plot_world CHAT_LOG_RE init).1 = Ok total)
    as H1 by reflexivity.
  split; [exact H1|]. split; [reflexivity|]. split; [reflexivity|].
  exact (cmd_chatrank_answers (λ s, s) plot_world (lit "Foo") init total H1).
Defined.


End FurtherSamples.
